(** * The cluster ring of the topology package

    A shallow embedding of the hash ring (type [ClusterRing]) and of the
    part of [Node] it relies on, followed by the properties of the ring
    that are established against it.

    Conventions of the embedding.
    - A Go [int] is a 64-bit signed integer, carried as a [Z]; the one
      addition of the ring that can leave the range ([GetId() + 1] in
      [Add]) is wrapped with [wrap_int].
    - A Go slice is a [list]; an index expression [s[i]] panics outside
      [0 <= i < len(s)], see [index] and [store_index].
    - A value of interface type [Node] stored in a slice is [None] for
      [nil] and [Some n] otherwise.
    - A method that mutates the ring is a computation in the monad [M],
      which threads the ring and stops at a run-time panic; the ring that
      comes with a panic is the one a deferred [recover] would observe.
    - A Go [string] is a [string]; a [bytes.Buffer] is the string written
      to it so far. *)

From Stdlib Require Import ZArith Lia DecimalString Sorted.
From stdpp Require Import base list strings gmap.

Local Open Scope Z_scope.

(** ** Integers, panics and slices *)

Definition int_min : Z := - 2 ^ 63.
Definition int_max : Z := 2 ^ 63 - 1.
Definition uint64_max : Z := 2 ^ 64 - 1.

(** Two's complement wrap-around of a 64-bit signed result. *)
Definition wrap_int (z : Z) : Z := (z + 2 ^ 63) mod 2 ^ 64 - 2 ^ 63.

Inductive result (A : Type) : Type :=
| Ok (a : A)
| Panic.
Arguments Ok {A} a.
Arguments Panic {A}.

(** [len(s)] *)
Definition len {A : Type} (s : list A) : Z := Z.of_nat (length s).

(** [s[i]] as an expression: a run-time panic when [i] is out of range. *)
Definition index {A : Type} (s : list A) (i : Z) : result A :=
  if (i <? 0) || (len s <=? i) then Panic
  else match s !! Z.to_nat i with
       | Some x => Ok x
       | None => Panic
       end.

(** [s[i] = x]: a run-time panic when [i] is out of range. *)
Definition store_index {A : Type} (s : list A) (i : Z) (x : A) : result (list A) :=
  if (i <? 0) || (len s <=? i) then Panic
  else Ok (<[Z.to_nat i := x]> s).

(** [copy(dst, src)]: the first [min(len(dst), len(src))] elements of
    [dst] are overwritten by those of [src]. *)
Definition copy {A : Type} (dst src : list A) : list A :=
  take (length dst) src ++ drop (length src) dst.

(** [fmt.Sprintf("%d", z)] *)
Definition fmt_d (z : Z) : string := NilZero.string_of_int (Z.to_int z).

(** [fmt.Sprintf("%v", l)] for [l] of type [[]int]: the elements in
    decimal, separated by one space, between square brackets. *)
Definition fmt_v (l : list Z) : string :=
  "[" +:+ String.concat " " (map fmt_d l) +:+ "]".

(** ** Nodes *)

(** The fields of [pb.StoreResource] that the accessors of [node] read. *)
Record StoreResource : Type := {
  Network : string;
  Address : string;
  AdminAddress : string
}.

(** The interface [Node], restricted to its accessors; the three methods
    on shard statuses play no part in the ring. *)
Class Node (N : Type) : Type := {
  GetId : N -> Z;
  GetNetwork : N -> string;
  GetAddress : N -> string;
  GetAdminAddress : N -> string;
  GetStoreResource : N -> StoreResource
}.

(** The struct [node] behind [NewNode]; [store] is taken to be a non-nil
    pointer, so that the accessors do not panic. *)
Record node : Type := mk_node {
  id : Z;
  store : StoreResource
}.

Definition NewNode (id : Z) (store : StoreResource) : node := mk_node id store.

#[export] Instance node_Node : Node node := {
  GetId n := id n;
  GetNetwork n := Network (store n);
  GetAddress n := Address (store n);
  GetAdminAddress n := AdminAddress (store n);
  GetStoreResource n := store n
}.

(** ** The ring *)

Section Ring.

Context {N : Type} `{Node N}.

Record ClusterRing : Type := mk_ring {
  keyspace : string;
  dataCenter : string;
  nodes : list (option N);
  expectedSize : Z;
  nextSize : Z;
  replicationFactor : Z
}.

Definition set_nodes (cluster : ClusterRing) (ns : list (option N)) : ClusterRing :=
  mk_ring (keyspace cluster) (dataCenter cluster) ns
          (expectedSize cluster) (nextSize cluster) (replicationFactor cluster).

(** [make([]Node, n)]: [n] nil entries. *)
Definition make (n : Z) : list (option N) := replicate (Z.to_nat n) None.

(** The computations that mutate a ring. *)
Definition M (A : Type) : Type := ClusterRing -> result A * ClusterRing.

Definition ret {A : Type} (a : A) : M A := fun cluster => (Ok a, cluster).

Definition bind {A B : Type} (m : M A) (k : A -> M B) : M B :=
  fun cluster =>
    match m cluster with
    | (Ok a, cluster') => k a cluster'
    | (Panic, cluster') => (Panic, cluster')
    end.

Definition get_nodes : M (list (option N)) := fun cluster => (Ok (nodes cluster), cluster).

Definition put_nodes (ns : list (option N)) : M unit :=
  fun cluster => (Ok tt, set_nodes cluster ns).

Definition lift {A : Type} (r : result A) : M A := fun cluster => (r, cluster).

#[local] Instance M_bind : MBind M := fun A B k m => bind m k.

Definition when_ (b : bool) (m : M unit) : M unit := if b then m else ret tt.

(** [Add]: grow the slice to [GetId() + 1] entries when it is shorter,
    then store the node at its id. *)
Definition Add (n : N) : M unit :=
  ns ← get_nodes;
  when_ (len ns <? wrap_int (GetId n + 1))
    (let capacity := wrap_int (GetId n + 1) in
     let nodes' := make capacity in
     put_nodes (copy nodes' ns));;
  ns ← get_nodes;
  ns' ← lift (store_index ns (GetId n) (Some n));
  put_nodes ns'.

(** [Remove]: the only test is [nodeId < len(cluster.nodes)]. *)
Definition Remove (nodeId : Z) : M (option N) :=
  ns ← get_nodes;
  if nodeId <? len ns then
    n ← lift (index ns nodeId);
    ns' ← lift (store_index ns nodeId None);
    put_nodes ns';;
    ret n
  else ret None.

Definition ExpectedSize (cluster : ClusterRing) : Z := expectedSize cluster.
Definition NextSize (cluster : ClusterRing) : Z := nextSize cluster.
Definition ReplicationFactor (cluster : ClusterRing) : Z := replicationFactor cluster.

Definition SetExpectedSize (cluster : ClusterRing) (expectedSize' : Z) : ClusterRing :=
  if 0 <? expectedSize' then
    mk_ring (keyspace cluster) (dataCenter cluster) (nodes cluster)
            expectedSize' (nextSize cluster) (replicationFactor cluster)
  else cluster.

Definition SetNextSize (cluster : ClusterRing) (nextSize' : Z) : ClusterRing :=
  mk_ring (keyspace cluster) (dataCenter cluster) (nodes cluster)
          (expectedSize cluster) nextSize' (replicationFactor cluster).

Definition SetReplicationFactor (cluster : ClusterRing) (replicationFactor' : Z) : ClusterRing :=
  if 0 <? replicationFactor' then
    mk_ring (keyspace cluster) (dataCenter cluster) (nodes cluster)
            (expectedSize cluster) (nextSize cluster) replicationFactor'
  else cluster.

(** The test [n == nil || n.GetAddress() == ""] that [CurrentSize],
    [MissingAndFreeNodeIds] and [String] make on a slot. *)
Definition unoccupied (n : option N) : bool :=
  match n with
  | None => true
  | Some n' => String.eqb (GetAddress n') ""
  end.

(** The read [cluster.nodes[i]] at an index that the enclosing loop or
    test keeps inside the slice. *)
Definition slot (ns : list (option N)) (i : nat) : option N :=
  default None (ns !! i).

(** [var n Node; if i < len(cluster.nodes) { n = cluster.nodes[i] }] *)
Definition slot_or_nil (ns : list (option N)) (i : Z) : option N :=
  if i <? len ns then slot ns (Z.to_nat i) else None.

(** The loop of [CurrentSize], [i] running from [len(cluster.nodes)] down
    to 1. *)
Fixpoint CurrentSize_from (ns : list (option N)) (i : nat) : Z :=
  match i with
  | O => 0
  | S j => if unoccupied (slot ns j) then CurrentSize_from ns j else Z.of_nat (S j)
  end.

Definition CurrentSize (cluster : ClusterRing) : Z :=
  CurrentSize_from (nodes cluster) (length (nodes cluster)).

(** The type [AccessOption], as [GetNode] calls it: from an index and the
    slot count to an index and a replica offset. *)
Definition AccessOption : Type := Z -> Z -> Z * Z.

Definition GetNode (cluster : ClusterRing) (index : Z) (options : list AccessOption)
  : option N * Z * bool :=
  let replica := 0 in
  let clusterSize := len (nodes cluster) in
  let '(index, replica) :=
    fold_left (fun '(index, replica) (option : AccessOption) => option index clusterSize)
              options (index, replica) in
  if (index <? 0) || (len (nodes cluster) <=? index) then (None, 0, false)
  else match slot (nodes cluster) (Z.to_nat index) with
       | None => (None, 0, false)
       | Some n => (Some n, replica, true)
       end.

(** One iteration of the loop of [MissingAndFreeNodeIds]. *)
Definition missing_free_step (ns : list (option N)) (currentClusterSize : Z)
    (acc : list Z * list Z) (i : Z) : list Z * list Z :=
  let '(missingList, freeList) := acc in
  let n := slot_or_nil ns i in
  if unoccupied n then
    if i <? currentClusterSize then (missingList ++ [i], freeList)
    else (missingList, freeList)
  else
    if currentClusterSize <=? i then (missingList, freeList ++ [i])
    else (missingList, freeList).

Definition MissingAndFreeNodeIds (cluster : ClusterRing) : list Z * list Z :=
  let max := len (nodes cluster) in
  let currentClusterSize := CurrentSize cluster in
  let max := if max <? currentClusterSize then currentClusterSize else max in
  fold_left (missing_free_step (nodes cluster) currentClusterSize) (seqZ 0 max) ([], []).

Definition NewHashRing (keyspace dataCenter : string) (expectedSize replicationFactor : Z)
  : ClusterRing :=
  mk_ring keyspace dataCenter [] expectedSize 0 replicationFactor.

(** One iteration of the first loop of [String]. *)
Definition String_step (cluster : ClusterRing) (nodeCount : Z) (output : string) (i : Z)
  : string :=
  let n := slot_or_nil (nodes cluster) i in
  let separated := if negb (i =? 0) then output +:+ " " else output in
  let placeholder :=
    if (i <? expectedSize cluster) || (i <? nodeCount) then separated +:+ "_" else output in
  match n with
  | None => placeholder
  | Some n' =>
      if String.eqb (GetAddress n') "" then placeholder
      else separated +:+ fmt_d (GetId n')
  end.

(** The method [String] of the ring. *)
Definition ClusterRing_String (cluster : ClusterRing) : string :=
  let output := "" in
  let output := output +:+ "[" in
  let nodeCount := CurrentSize cluster in
  let max := len (nodes cluster) in
  let max := if max <? expectedSize cluster then expectedSize cluster else max in
  let output := fold_left (String_step cluster nodeCount) (seqZ 0 max) output in
  let output := output +:+ "]" in
  let output :=
    if nextSize cluster =? 0 then
      if negb (CurrentSize cluster =? expectedSize cluster) && negb (expectedSize cluster =? 0)
      then output +:+ " size " +:+ fmt_d (CurrentSize cluster) +:+ "->"
                  +:+ fmt_d (expectedSize cluster) +:+ " "
      else output +:+ " size " +:+ fmt_d (CurrentSize cluster) +:+ " "
    else output +:+ " size " +:+ fmt_d (CurrentSize cluster) +:+ "=>"
                +:+ fmt_d (nextSize cluster) +:+ " " in
  let '(missingList, freeList) := MissingAndFreeNodeIds cluster in
  if (0 <? len missingList) || (0 <? len freeList) then
    let output := output +:+ "(" in
    let output :=
      if 0 <? len missingList
      then output +:+ fmt_d (len missingList) +:+ " missing " +:+ fmt_v missingList
      else output in
    let output :=
      if 0 <? len freeList then
        let output := if 0 <? len missingList then output +:+ ", " else output in
        output +:+ fmt_d (len freeList) +:+ " free " +:+ fmt_v freeList
      else output in
    output +:+ ")"
  else output.

(** *** Bucket of a key *)

Section Bucket.

(** Modelled from the spec: [jump.Hash] of the package
    [github.com/dgryski/go-jump], of type
    [func(key uint64, numBuckets int) int32], is not part of the sources.
    It is a parameter of the two methods that call it; its contract is
    [jump_Hash_contract] below. *)
Variable jump_Hash : Z -> Z -> Z.

(** The conversion [int(...)] of the [int32] result keeps its value. *)
Definition FindBucketGivenSize (cluster : ClusterRing) (keyHash : Z) (size : Z) : Z :=
  jump_Hash keyHash size.

Definition FindBucket (cluster : ClusterRing) (keyHash : Z) : Z :=
  jump_Hash keyHash (ExpectedSize cluster).

End Bucket.

(** Modelled from the spec: the contract of the jump hash, the function
    [jump.Hash] that is missing from the sources. It maps a 64-bit hash
    and a bucket count to an integer in [[0, count)] and never returns a
    value outside that range for [count > 0]; nothing is said of
    [count <= 0]. *)
Definition jump_Hash_contract (jump_Hash : Z -> Z -> Z) : Prop :=
  forall key numBuckets : Z,
    0 <= key <= uint64_max -> 0 < numBuckets ->
    0 <= jump_Hash key numBuckets < numBuckets.

(** *** Vocabulary of the properties *)

(** Slot [i] holds a node whose client address is not empty. *)
Definition occupied (cluster : ClusterRing) (i : Z) : bool :=
  (0 <=? i) && negb (unoccupied (slot_or_nil (nodes cluster) i)).

(** The rings that [NewHashRing], [Add] and [Remove] produce; a call that
    panics leaves the ring it had reached. *)
Inductive reachable : ClusterRing -> Prop :=
| reachable_new (keyspace dataCenter : string) (expectedSize replicationFactor : Z) :
    reachable (NewHashRing keyspace dataCenter expectedSize replicationFactor)
| reachable_add (cluster : ClusterRing) (n : N) :
    reachable cluster -> reachable (Add n cluster).2
| reachable_remove (cluster : ClusterRing) (nodeId : Z) :
    reachable cluster -> reachable (Remove nodeId cluster).2.

(** The lookup of [GetNode] in the words of its description: the options
    are applied one after the other to the pair of the index and the
    replica offset, each to what the one before it produced. *)
Fixpoint transform (options : list AccessOption) (size : Z) (p : Z * Z) : Z * Z :=
  match options with
  | [] => p
  | option :: rest => transform rest size (option p.1 size)
  end.

Definition GetNode_spec (cluster : ClusterRing) (index : Z) (options : list AccessOption)
  : option N * Z * bool :=
  let p := transform options (len (nodes cluster)) (index, 0) in
  if bool_decide (0 <= p.1 < len (nodes cluster)) then
    match nodes cluster !! Z.to_nat p.1 with
    | Some (Some n) => (Some n, p.2, true)
    | _ => (None, 0, false)
    end
  else (None, 0, false).

End Ring.

(** ** Sample nodes and rings *)

Definition store_at (address : string) : StoreResource :=
  {| Network := "tcp"; Address := address; AdminAddress := address +:+ "-admin" |}.

Definition node_at (id : Z) : node := NewNode id (store_at ("store" +:+ fmt_d id)).

(** A node that has not announced an address yet. *)
Definition addressless (id : Z) : node :=
  NewNode id {| Network := "tcp"; Address := ""; AdminAddress := "" |}.

Definition empty_ring : @ClusterRing node := NewHashRing "ks1" "dc1" 3 2.

(** Nodes 0 and 2 have joined, in this order. *)
Definition ring_0_2 : @ClusterRing node :=
  (Add (node_at 2) (Add (node_at 0) empty_ring).2).2.

(** Nodes 0, 2 and 4 have joined. *)
Definition ring_0_2_4 : @ClusterRing node := (Add (node_at 4) ring_0_2).2.

(** Slot 0 holds a node without an address. *)
Definition ring_addressless : @ClusterRing node := (Add (addressless 0) empty_ring).2.

(** Two access options: the replica of rank [r] on the next servers of
    the ring, and a fixed shift. *)
Definition replica_option (r : Z) : AccessOption :=
  fun index clusterSize => (if clusterSize =? 0 then index else (index + r) mod clusterSize, r).

(** A bucket function within the contract of the jump hash. *)
Definition remainder_bucket (key numBuckets : Z) : Z := key mod numBuckets.

(** ** Further vocabulary of the ring *)

Section RingVocabulary.

Context {N : Type} `{Node N}.

(** The rings that the constructor and the five mutating methods
    produce. *)
Inductive ring_history : @ClusterRing N -> Prop :=
| history_new (keyspace dataCenter : string) (expectedSize replicationFactor : Z) :
    ring_history (NewHashRing keyspace dataCenter expectedSize replicationFactor)
| history_Add (cluster : ClusterRing) (n : N) :
    ring_history cluster -> ring_history (Add n cluster).2
| history_Remove (cluster : ClusterRing) (nodeId : Z) :
    ring_history cluster -> ring_history (Remove nodeId cluster).2
| history_SetExpectedSize (cluster : ClusterRing) (v : Z) :
    ring_history cluster -> ring_history (SetExpectedSize cluster v)
| history_SetNextSize (cluster : ClusterRing) (v : Z) :
    ring_history cluster -> ring_history (SetNextSize cluster v)
| history_SetReplicationFactor (cluster : ClusterRing) (v : Z) :
    ring_history cluster -> ring_history (SetReplicationFactor cluster v).

(** The number of occupied slots. *)
Definition occupied_count (cluster : @ClusterRing N) : Z :=
  len (List.filter (occupied cluster) (seqZ 0 (len (nodes cluster)))).

(** What [String] writes for a slot it shows: the id of the node that
    occupies it, or the placeholder. *)
Definition slot_text (cluster : @ClusterRing N) (i : Z) : string :=
  match slot_or_nil (nodes cluster) i with
  | None => "_"
  | Some n => if String.eqb (GetAddress n) "" then "_" else fmt_d (GetId n)
  end.

(** The size annotation that [String] writes after the list of slots. *)
Definition size_text (cluster : @ClusterRing N) : string :=
  if nextSize cluster =? 0 then
    if negb (CurrentSize cluster =? expectedSize cluster) && negb (expectedSize cluster =? 0)
    then " size " +:+ fmt_d (CurrentSize cluster) +:+ "->"
                  +:+ fmt_d (expectedSize cluster) +:+ " "
    else " size " +:+ fmt_d (CurrentSize cluster) +:+ " "
  else " size " +:+ fmt_d (CurrentSize cluster) +:+ "=>" +:+ fmt_d (nextSize cluster) +:+ " ".

End RingVocabulary.

(** ** The shard table of a node *)

(** The field [shards] of [node] is a Go map, a reference to a table that
    the three methods on shard statuses read and update in place; they are
    embedded as functions of that table. The type [pb.ShardStatus] and its
    method [IdentifierOnThisServer] are not part of the sources and are
    parameters. *)
Section Shards.

Variable ShardStatus : Type.
Variable IdentifierOnThisServer : ShardStatus -> string.

(** The table that [NewNode] allocates. *)
Definition NewNode_shards : gmap string ShardStatus := ∅.

Definition SetShardStatus (shards : gmap string ShardStatus) (shardStatus : ShardStatus)
  : option ShardStatus * gmap string ShardStatus :=
  let oldShardStatus := shards !! IdentifierOnThisServer shardStatus in
  (oldShardStatus, <[IdentifierOnThisServer shardStatus := shardStatus]> shards).

Definition RemoveShardStatus (shards : gmap string ShardStatus) (shardStatus : ShardStatus)
  : gmap string ShardStatus :=
  delete (IdentifierOnThisServer shardStatus) shards.

(** The body of [GetShardStatuses] on the entries of the table in the
    order in which [range] visits them. *)
Definition GetShardStatuses_loop (visited : list (string * ShardStatus)) : list ShardStatus :=
  fold_left (fun statuses '(_, shard) => let ss := shard in statuses ++ [ss]) visited [].

(** [range] visits every entry of a map once, in an order that Go leaves
    open: [GetShardStatuses] may return [statuses] when some order of
    visit produces it. *)
Definition GetShardStatuses (shards : gmap string ShardStatus) (statuses : list ShardStatus)
  : Prop :=
  exists visited : list (string * ShardStatus),
    visited ≡ₚ map_to_list shards /\ statuses = GetShardStatuses_loop visited.

(** The tables that a node can have: the one of [NewNode], updated by
    [SetShardStatus] and [RemoveShardStatus]. *)
Inductive shards_history : gmap string ShardStatus -> Prop :=
| shards_new : shards_history NewNode_shards
| shards_set (shards : gmap string ShardStatus) (shardStatus : ShardStatus) :
    shards_history shards -> shards_history (SetShardStatus shards shardStatus).2
| shards_removed (shards : gmap string ShardStatus) (shardStatus : ShardStatus) :
    shards_history shards -> shards_history (RemoveShardStatus shards shardStatus).

(** One of the results of [GetShardStatuses], for evaluation. *)
Definition GetShardStatuses_once (shards : gmap string ShardStatus) : list ShardStatus :=
  GetShardStatuses_loop (map_to_list shards).

End Shards.

Arguments NewNode_shards {ShardStatus}.
Arguments SetShardStatus {ShardStatus} IdentifierOnThisServer shards shardStatus.
Arguments RemoveShardStatus {ShardStatus} IdentifierOnThisServer shards shardStatus.
Arguments GetShardStatuses_loop {ShardStatus} visited.
Arguments GetShardStatuses {ShardStatus} shards statuses.
Arguments GetShardStatuses_once {ShardStatus} shards.
Arguments shards_history {ShardStatus} IdentifierOnThisServer _.

(** A shard status reduced to its identifier and a state. *)
Record sample_status : Type := { status_identifier : string; status_state : Z }.

Definition status_of (identifier : string) (state : Z) : sample_status :=
  {| status_identifier := identifier; status_state := state |}.

(** The table of a node to which two shards have been assigned. *)
Definition two_shards : gmap string sample_status :=
  (SetShardStatus status_identifier
     (SetShardStatus status_identifier NewNode_shards (status_of "ks.0.1" 1)).2
     (status_of "ks.0.2" 1)).2.

(** ** The connection dispatcher *)

Module Connection.

(** [pb.ClusterNode], with the one field that the dispatcher reads; the
    field is a pointer and may be nil. *)
Record ClusterNode : Type := {
  ClusterNode_StoreResource : option StoreResource
}.

Section Dispatcher.

(** [*grpc.ClientConn], and the outcome of
    [grpc.Dial(target, grpc.WithInsecure())]: a connection, or the text of
    the error. *)
Variable ClientConn : Type.
Variable grpc_Dial : string -> ClientConn + string.

(** The calls that leave the dispatcher, in the order they are made. *)
Inductive event : Type :=
| Logged (message : string)
| Dialed (target : string)
| Called (node : ClusterNode) (conn : ClientConn)
| Closed (conn : ClientConn).

(** The caller's function [fn]: [None] for a nil error, [Some] of the text
    of the error otherwise. *)
Definition callback : Type := ClusterNode -> ClientConn -> option string.

(** A call of the dispatcher returns an error value, unless it panics, and
    leaves a list of events. *)
Definition outcome : Type := result (option string) * list event.

Definition doWithConnect (name : string) (node : option ClusterNode) (serverId : Z)
    (fn : callback) : outcome :=
  match node with
  | None => (Ok (Some (name +:+ ": server " +:+ fmt_d serverId +:+ " is missing")), [])
  | Some node' =>
      match ClusterNode_StoreResource node' with
      | None => (Panic, [])
      | Some store =>
          match grpc_Dial (AdminAddress store) with
          | inr err =>
              (Ok (Some (name +:+ ": fail to dial " +:+ AdminAddress store +:+ ": " +:+ err)),
               [Dialed (AdminAddress store)])
          | inl grpcConnection =>
              (Ok (fn node' grpcConnection),
               [Dialed (AdminAddress store); Called node' grpcConnection;
                Closed grpcConnection])
          end
      end
  end.

(** [PrimaryShards.WithConnection]; [fmt_nodes] is the rendering of the
    slice by the verb [%+v]. *)
Definition PrimaryShards_WithConnection (fmt_nodes : list (option ClusterNode) -> string)
    (nodes : list (option ClusterNode)) (name : string) (serverId : Z) (fn : callback)
  : outcome :=
  if (serverId <? 0) || (len nodes <=? serverId) then
    (Ok (Some ("server " +:+ fmt_d serverId +:+ " not found in " +:+ fmt_d (len nodes)
               +:+ " servers: " +:+ fmt_nodes nodes)), [])
  else
    match index nodes serverId with
    | Panic => (Panic, [])
    | Ok node => doWithConnect name node serverId fn
    end.

(** [Cluster.WithConnection]. The type [Cluster] is not part of the
    sources: its methods [GetNode], called without options, and [String]
    are parameters. *)
Definition Cluster_WithConnection
    (cluster_GetNode : Z -> option ClusterNode * Z * bool) (cluster_String : string)
    (name : string) (serverId : Z) (fn : callback) : outcome :=
  let '(node, _, ok) := cluster_GetNode serverId in
  if negb ok then
    (Ok (Some ("server " +:+ fmt_d serverId +:+ " not found")),
     [Logged ("cluster misses server " +:+ fmt_d serverId +:+ ": " +:+ cluster_String)])
  else doWithConnect name node serverId fn.

End Dispatcher.

Arguments Logged {ClientConn} message.
Arguments Dialed {ClientConn} target.
Arguments Called {ClientConn} node conn.
Arguments Closed {ClientConn} conn.
Arguments doWithConnect {ClientConn} grpc_Dial name node serverId fn.
Arguments PrimaryShards_WithConnection {ClientConn} grpc_Dial fmt_nodes nodes name serverId fn.
Arguments Cluster_WithConnection {ClientConn} grpc_Dial cluster_GetNode cluster_String
  name serverId fn.

End Connection.

(** Sample dispatcher data: a connection is named by its target, and the
    dial fails on the empty target. *)
Definition sample_dial (target : string) : string + string :=
  if String.eqb target "" then inr "no address" else inl ("conn:" +:+ target).

Definition cluster_node_at (admin : string) : Connection.ClusterNode :=
  {| Connection.ClusterNode_StoreResource :=
       Some {| Network := "tcp"; Address := admin; AdminAddress := admin |} |}.

Definition sample_shards : list (option Connection.ClusterNode) :=
  [Some (cluster_node_at "s0:8279"); None; Some (cluster_node_at "")].

Definition sample_fn : Connection.callback string :=
  fun node conn => if String.eqb conn "conn:s0:8279" then None else Some "refused".

(** ** Deletion on the store server *)

(** The normal return of a call, under a name that the field [Ok] of the
    response does not hide. *)
Abbreviation Returned := Ok (only parsing).

Module Store.

(** The request and the response of a deletion, [pb.DeleteRequest] and
    [pb.DeleteResponse], with the fields that [processDelete] reads and
    writes; a key is a byte string. *)
Record DeleteRequest : Type := {
  Key : list Byte.byte;
  PartitionHash : Z
}.

Record DeleteResponse : Type := {
  Ok : bool;
  Status : string
}.

(** The six arguments of [change_log.NewLogEntry], in its order; the
    last one is [None] for a nil value. *)
Record LogEntry : Type := NewLogEntry {
  entry_partitionHash : Z;
  entry_updatedAtNs : Z;
  entry_ttl : Z;
  entry_isDelete : bool;
  entry_key : list Byte.byte;
  entry_value : option (list Byte.byte)
}.

(** A node of the store server, as [processDelete] sees it: what
    [db.Delete] answers for a key ([None] for a nil error, [Some] of the
    text of the error otherwise) and whether the log manager [lm] is
    there. *)
Record node : Type := {
  db_Delete : list Byte.byte -> option string;
  lm : bool
}.

Record storeServer : Type := {
  nodes : list node
}.

(** The calls to the storage engine and to the change log, in order. *)
Inductive event : Type :=
| Deleted (key : list Byte.byte)
| Appended (entry : LogEntry).

(** The conversion [uint64(...)] of an [int64]. *)
Definition uint64_of (z : Z) : Z := z mod 2 ^ 64.

Definition logDelete (ss : storeServer) (key : list Byte.byte) (partitionHash updatedAtNs : Z)
  : result unit * list event :=
  match index (nodes ss) 0 with
  | Panic => (Panic, [])
  | Returned node0 =>
      if negb (lm node0) then (Returned tt, [])
      else (Returned tt, [Appended (NewLogEntry partitionHash updatedAtNs 0 true key None)])
  end.

(** [processDelete]; [now] is what [time.Now().UnixNano()] returns when
    it is called. *)
Definition processDelete (now : Z) (ss : storeServer) (deleteRequest : DeleteRequest)
  : result DeleteResponse * list event :=
  let resp := {| Ok := true; Status := "" |} in
  match index (nodes ss) 0 with
  | Panic => (Panic, [])
  | Returned node0 =>
      let err := db_Delete node0 (Key deleteRequest) in
      match err with
      | Some message =>
          let resp := {| Ok := false; Status := Status resp |} in
          let resp := {| Ok := Ok resp; Status := message |} in
          (Returned resp, [Deleted (Key deleteRequest)])
      | None =>
          match logDelete ss (Key deleteRequest) (PartitionHash deleteRequest)
                          (uint64_of now) with
          | (Panic, events) => (Panic, Deleted (Key deleteRequest) :: events)
          | (Returned _, events) => (Returned resp, Deleted (Key deleteRequest) :: events)
          end
      end
  end.

End Store.

(** ** Slices *)

Lemma len_nonneg {A : Type} (s : list A) : 0 <= len s.
Proof. unfold len. lia. Qed.

Lemma wrap_int_id (z : Z) : int_min <= z <= int_max -> wrap_int z = z.
Proof.
  unfold int_min, int_max, wrap_int. intros Hz.
  rewrite Z.mod_small; lia.
Qed.

Lemma index_in_range {A : Type} (s : list A) (i : Z) :
  0 <= i < len s -> exists x, s !! Z.to_nat i = Some x /\ index s i = Ok x.
Proof.
  intros Hi. unfold index.
  destruct (s !! Z.to_nat i) as [x|] eqn:Hx.
  - exists x. split; [done|].
    replace (i <? 0) with false by lia. replace (len s <=? i) with false by lia. done.
  - apply lookup_ge_None in Hx. unfold len in Hi. lia.
Qed.

Lemma index_negative {A : Type} (s : list A) (i : Z) : i < 0 -> index s i = Panic.
Proof. intros Hi. unfold index. replace (i <? 0) with true by lia. done. Qed.

Lemma store_index_in_range {A : Type} (s : list A) (i : Z) (x : A) :
  0 <= i < len s -> store_index s i x = Ok (<[Z.to_nat i := x]> s).
Proof.
  intros Hi. unfold store_index.
  replace (i <? 0) with false by lia. replace (len s <=? i) with false by lia. done.
Qed.

Lemma store_index_out_of_range {A : Type} (s : list A) (i : Z) (x : A) :
  i < 0 \/ len s <= i -> store_index s i x = Panic.
Proof.
  intros Hi. unfold store_index.
  destruct (i <? 0) eqn:E1; [done|]. replace (len s <=? i) with true by lia. done.
Qed.

Lemma copy_into_longer {A : Type} (dst src : list A) :
  (length src <= length dst)%nat -> copy dst src = src ++ drop (length src) dst.
Proof. intros Hle. unfold copy. by rewrite take_ge. Qed.

Section RingFacts.

Context {N : Type} `{Node N}.

Implicit Types (cluster : @ClusterRing N) (ns : list (option N)) (n : N).

Lemma slot_lookup ns (j : nat) (x : option N) : ns !! j = Some x -> slot ns j = x.
Proof. unfold slot. by intros ->. Qed.

Lemma slot_out_of_range ns (j : nat) : (length ns <= j)%nat -> slot ns j = None.
Proof. intros Hj. unfold slot. by rewrite lookup_ge_None_2. Qed.

Lemma slot_app_l ns ns' (j : nat) : (j < length ns)%nat -> slot (ns ++ ns') j = slot ns j.
Proof. intros Hj. unfold slot. by rewrite lookup_app_l. Qed.

Lemma slot_insert_ne ns (i j : nat) (x : option N) : i <> j -> slot (<[i := x]> ns) j = slot ns j.
Proof. intros Hne. unfold slot. by rewrite list_lookup_insert_ne. Qed.

Lemma slot_insert_eq ns (i : nat) (x : option N) :
  (i < length ns)%nat -> slot (<[i := x]> ns) i = x.
Proof. intros Hi. unfold slot. by rewrite list_lookup_insert_eq. Qed.

(** The slice that [Add] allocates when it grows the ring. *)
Lemma grown_length ns (c : Z) : len ns < c -> len (copy (make c) ns) = c.
Proof.
  intros Hc. unfold len in *.
  rewrite copy_into_longer; unfold make; rewrite ?length_replicate; [|lia].
  rewrite length_app, length_drop, length_replicate. lia.
Qed.

Lemma grown_slot ns (c : Z) (j : nat) : len ns < c -> slot (copy (make c) ns) j = slot ns j.
Proof.
  intros Hc. unfold len in *.
  rewrite copy_into_longer; unfold make; rewrite ?length_replicate; [|lia].
  destruct (decide (j < length ns)%nat) as [Hj|Hj].
  - by apply slot_app_l.
  - rewrite (slot_out_of_range ns) by lia.
    unfold slot. rewrite lookup_app_r by lia.
    rewrite drop_replicate.
    destruct (replicate _ _ !! _) as [x|] eqn:Hx; [|done].
    by apply lookup_replicate in Hx as [-> _].
Qed.

(** *** The two mutations, case by case *)

Lemma wrap_int_range (z : Z) : int_min <= wrap_int z <= int_max.
Proof.
  unfold int_min, int_max, wrap_int.
  pose proof (Z.mod_pos_bound (z + 2 ^ 63) (2 ^ 64)). lia.
Qed.

Lemma Remove_in_range cluster (nodeId : Z) :
  0 <= nodeId < len (nodes cluster) ->
  Remove nodeId cluster =
    (Ok (slot (nodes cluster) (Z.to_nat nodeId)),
     set_nodes cluster (<[Z.to_nat nodeId := None]> (nodes cluster))).
Proof.
  intros Hid. unfold Remove, mbind, M_bind, bind, get_nodes, lift, put_nodes; simpl.
  replace (nodeId <? len (nodes cluster)) with true by lia.
  destruct (index_in_range (nodes cluster) nodeId Hid) as (x & Hx & ->).
  rewrite store_index_in_range by done.
  by rewrite (slot_lookup _ _ _ Hx).
Qed.

Lemma Remove_beyond cluster (nodeId : Z) :
  len (nodes cluster) <= nodeId -> Remove nodeId cluster = (Ok None, cluster).
Proof.
  intros Hid. unfold Remove, mbind, M_bind, bind, get_nodes; simpl.
  replace (nodeId <? len (nodes cluster)) with false by lia. done.
Qed.

Lemma Remove_negative cluster (nodeId : Z) :
  nodeId < 0 -> Remove nodeId cluster = (Panic, cluster).
Proof.
  intros Hid. unfold Remove, mbind, M_bind, bind, get_nodes, lift; simpl.
  pose proof (len_nonneg (nodes cluster)).
  replace (nodeId <? len (nodes cluster)) with true by lia.
  by rewrite index_negative.
Qed.

Lemma Add_in_place cluster n :
  0 <= GetId n < len (nodes cluster) ->
  Add n cluster =
    (Ok tt, set_nodes cluster (<[Z.to_nat (GetId n) := Some n]> (nodes cluster))).
Proof.
  intros Hid.
  unfold Add, mbind, M_bind, bind, get_nodes, when_, lift, put_nodes; simpl.
  assert ((len (nodes cluster) <? wrap_int (GetId n + 1)) = false) as ->.
  { pose proof (wrap_int_range (GetId n + 1)).
    destruct (decide (GetId n < int_max)) as [Hlt|Hge].
    - rewrite wrap_int_id; unfold int_min, int_max in *; lia.
    - lia. }
  unfold ret; simpl. by rewrite store_index_in_range.
Qed.

Lemma Add_grow cluster n :
  0 <= GetId n < int_max -> len (nodes cluster) <= GetId n ->
  Add n cluster =
    (Ok tt,
     set_nodes cluster
       (<[Z.to_nat (GetId n) := Some n]> (copy (make (GetId n + 1)) (nodes cluster)))).
Proof.
  intros Hid Hlen.
  unfold Add, mbind, M_bind, bind, get_nodes, when_, lift, put_nodes; simpl.
  rewrite wrap_int_id by (unfold int_min, int_max in *; lia).
  replace (len (nodes cluster) <? GetId n + 1) with true by lia. simpl.
  rewrite store_index_in_range; [done|].
  rewrite grown_length; lia.
Qed.

Lemma Add_negative cluster n :
  int_min <= GetId n < 0 -> Add n cluster = (Panic, cluster).
Proof.
  intros Hid.
  unfold Add, mbind, M_bind, bind, get_nodes, when_, lift, put_nodes; simpl.
  pose proof (len_nonneg (nodes cluster)).
  rewrite wrap_int_id by (unfold int_min, int_max in *; lia).
  replace (len (nodes cluster) <? GetId n + 1) with false by lia.
  unfold ret; simpl. rewrite store_index_out_of_range; [done | lia].
Qed.

(** Whatever the node, [Add] keeps the length or extends it, and reads of
    the slots other than the node's own are what they were. *)
Lemma Add_frame cluster n :
  len (nodes cluster) <= len (nodes (Add n cluster).2) /\
  (forall j : nat, Z.of_nat j <> GetId n ->
     slot (nodes (Add n cluster).2) j = slot (nodes cluster) j) /\
  keyspace (Add n cluster).2 = keyspace cluster /\
  dataCenter (Add n cluster).2 = dataCenter cluster /\
  expectedSize (Add n cluster).2 = expectedSize cluster /\
  nextSize (Add n cluster).2 = nextSize cluster /\
  replicationFactor (Add n cluster).2 = replicationFactor cluster.
Proof.
  unfold Add, mbind, M_bind, bind, get_nodes, when_, lift, put_nodes; simpl.
  destruct (len (nodes cluster) <? wrap_int (GetId n + 1)) eqn:Hgrow; simpl.
  - apply Z.ltb_lt in Hgrow.
    pose proof (grown_length _ _ Hgrow) as Hlen.
    unfold store_index.
    destruct ((GetId n <? 0) || (len (copy (make (wrap_int (GetId n + 1))) (nodes cluster)) <=? GetId n)) eqn:Hst;
      simpl; (split; [|split; [|done]]).
    + lia.
    + intros j _. by apply grown_slot.
    + unfold len in *. rewrite length_insert. lia.
    + intros j Hj. rewrite slot_insert_ne by lia. by apply grown_slot.
  - unfold ret; simpl. unfold store_index.
    destruct ((GetId n <? 0) || (len (nodes cluster) <=? GetId n)) eqn:Hst;
      simpl; (split; [|split; [|done]]).
    + lia.
    + done.
    + unfold len. rewrite length_insert. lia.
    + intros j Hj. rewrite slot_insert_ne by lia. done.
Qed.

(** [Remove] keeps the length, and reads of the slots other than the one
    it is given are what they were. *)
Lemma Remove_frame cluster (nodeId : Z) :
  len (nodes (Remove nodeId cluster).2) = len (nodes cluster) /\
  (forall j : nat, Z.of_nat j <> nodeId ->
     slot (nodes (Remove nodeId cluster).2) j = slot (nodes cluster) j) /\
  keyspace (Remove nodeId cluster).2 = keyspace cluster /\
  dataCenter (Remove nodeId cluster).2 = dataCenter cluster /\
  expectedSize (Remove nodeId cluster).2 = expectedSize cluster /\
  nextSize (Remove nodeId cluster).2 = nextSize cluster /\
  replicationFactor (Remove nodeId cluster).2 = replicationFactor cluster.
Proof.
  destruct (decide (nodeId < 0)) as [Hneg|Hpos].
  { by rewrite Remove_negative. }
  destruct (decide (nodeId < len (nodes cluster))) as [Hin|Hout].
  - rewrite Remove_in_range by lia. simpl. split; [|split; [|done]].
    + unfold len. by rewrite length_insert.
    + intros j Hj. rewrite slot_insert_ne by lia. done.
  - by rewrite Remove_beyond by lia.
Qed.

(** *** The extent of the ring *)

Lemma CurrentSize_from_bounds ns (i : nat) : 0 <= CurrentSize_from ns i <= Z.of_nat i.
Proof.
  induction i as [|i IH]; simpl; [lia|].
  destruct (unoccupied (slot ns i)); lia.
Qed.

(** The scan stops at the first occupied slot it meets from the top. *)
Lemma CurrentSize_from_top ns (i k : nat) :
  (k < i)%nat -> unoccupied (slot ns k) = false ->
  (forall j : nat, (k < j < i)%nat -> unoccupied (slot ns j) = true) ->
  CurrentSize_from ns i = Z.of_nat (S k).
Proof.
  induction i as [|i IH]; intros Hk Hocc Habove; [lia|].
  simpl. destruct (decide (k = i)) as [->|Hne].
  - by rewrite Hocc.
  - rewrite Habove by lia. apply IH; [lia|done|]. intros j Hj. apply Habove. lia.
Qed.

Lemma CurrentSize_from_none ns (i : nat) :
  (forall j : nat, (j < i)%nat -> unoccupied (slot ns j) = true) ->
  CurrentSize_from ns i = 0.
Proof.
  induction i as [|i IH]; intros Hall; [done|].
  simpl. rewrite Hall by lia. apply IH. intros j Hj. apply Hall. lia.
Qed.

(** No slot at or above the result of the scan is occupied. *)
Lemma CurrentSize_from_above ns (i j : nat) :
  CurrentSize_from ns i <= Z.of_nat j -> (j < i)%nat -> unoccupied (slot ns j) = true.
Proof.
  induction i as [|i IH]; intros Hcs Hj; [lia|].
  simpl in Hcs. destruct (unoccupied (slot ns i)) eqn:Hi; [|lia].
  destruct (decide (j = i)) as [->|Hne]; [done|]. apply IH; [done|lia].
Qed.

(** The slot just below a positive result is occupied. *)
Lemma CurrentSize_from_pos ns (i : nat) :
  0 < CurrentSize_from ns i ->
  unoccupied (slot ns (Z.to_nat (CurrentSize_from ns i - 1))) = false.
Proof.
  induction i as [|i IH]; simpl; [lia|].
  destruct (unoccupied (slot ns i)) eqn:Hi; [done|].
  intros _. by replace (Z.to_nat (Z.of_nat (S i) - 1)) with i by lia.
Qed.

Lemma CurrentSize_bounds cluster : 0 <= CurrentSize cluster <= len (nodes cluster).
Proof. apply CurrentSize_from_bounds. Qed.

Lemma occupied_spec cluster (i : Z) :
  occupied cluster i = true <->
  0 <= i < len (nodes cluster) /\ unoccupied (slot (nodes cluster) (Z.to_nat i)) = false.
Proof.
  unfold occupied, slot_or_nil. split.
  - intros [Hi Hocc]%andb_true_iff. apply Z.leb_le in Hi.
    destruct (i <? len (nodes cluster)) eqn:Hlt; [|done].
    apply negb_true_iff in Hocc. split; [lia|done].
  - intros [Hi Hocc]. replace (0 <=? i) with true by lia.
    replace (i <? len (nodes cluster)) with true by lia. by rewrite Hocc.
Qed.

Lemma unoccupied_of_not_occupied cluster (j : nat) :
  occupied cluster (Z.of_nat j) = false -> unoccupied (slot (nodes cluster) j) = true.
Proof.
  intros Hocc. destruct (unoccupied (slot (nodes cluster) j)) eqn:Hj; [done|].
  destruct (decide (j < length (nodes cluster))%nat) as [Hlt|Hge].
  - assert (occupied cluster (Z.of_nat j) = true) as Hyes; [|congruence].
    apply occupied_spec. rewrite Nat2Z.id. unfold len. split; [lia|done].
  - by rewrite slot_out_of_range in Hj by lia.
Qed.

Lemma CurrentSize_highest cluster (k : Z) :
  occupied cluster k = true ->
  (forall j : Z, k < j -> occupied cluster j = false) ->
  CurrentSize cluster = k + 1.
Proof.
  intros [Hk Hocc]%occupied_spec Habove. unfold CurrentSize, len in *.
  rewrite (CurrentSize_from_top _ _ (Z.to_nat k)); [lia|lia|done|].
  intros j Hj. apply unoccupied_of_not_occupied, Habove. lia.
Qed.

Lemma CurrentSize_no_node cluster :
  (forall i : Z, occupied cluster i = false) -> CurrentSize cluster = 0.
Proof.
  intros Hnone. apply CurrentSize_from_none.
  intros j _. by apply unoccupied_of_not_occupied.
Qed.

(** An occupied slot lies below the current size. *)
Lemma occupied_below_CurrentSize cluster (i : Z) :
  occupied cluster i = true -> i < CurrentSize cluster.
Proof.
  intros [Hi Hocc]%occupied_spec.
  destruct (decide (i < CurrentSize cluster)) as [|Hge]; [done|].
  rewrite (CurrentSize_from_above (nodes cluster) (length (nodes cluster)) (Z.to_nat i)) in Hocc;
    [done| |]; unfold CurrentSize, len in *; lia.
Qed.

(** *** Missing and free slots *)

Lemma filter_none {A : Type} (f : A -> bool) (l : list A) :
  (forall x, In x l -> f x = false) -> List.filter f l = [].
Proof.
  induction l as [|x l IH]; intros Hf; [done|].
  simpl. rewrite Hf by (by left). apply IH. intros y Hy. apply Hf. by right.
Qed.

Lemma In_seqZ (m n x : Z) : In x (seqZ m n) <-> m <= x < m + n.
Proof. rewrite <- list_elem_of_In. apply elem_of_seqZ. Qed.

(** The loop appends to the first list the indices it classifies as
    missing and to the second those it classifies as free. *)
Lemma missing_free_fold ns (cs : Z) (l : list Z) (missingList freeList : list Z) :
  fold_left (missing_free_step ns cs) l (missingList, freeList) =
    (missingList ++ List.filter (fun i => unoccupied (slot_or_nil ns i) && (i <? cs)) l,
     freeList ++ List.filter (fun i => negb (unoccupied (slot_or_nil ns i)) && (cs <=? i)) l).
Proof.
  revert missingList freeList.
  induction l as [|i l IH]; intros missingList freeList; simpl.
  - by rewrite !app_nil_r.
  - destruct (unoccupied (slot_or_nil ns i)); simpl.
    + destruct (i <? cs); rewrite IH; [|done]. by rewrite <- app_assoc.
    + destruct (cs <=? i); rewrite IH; [|done]. by rewrite <- app_assoc.
Qed.

Lemma MissingAndFreeNodeIds_spec cluster :
  MissingAndFreeNodeIds cluster =
    (List.filter (fun i => negb (occupied cluster i)) (seqZ 0 (CurrentSize cluster)), []).
Proof.
  unfold MissingAndFreeNodeIds.
  pose proof (CurrentSize_bounds cluster) as Hcs.
  replace (len (nodes cluster) <? CurrentSize cluster) with false by lia.
  rewrite missing_free_fold. simpl. f_equal.
  - replace (len (nodes cluster))
      with (CurrentSize cluster + (len (nodes cluster) - CurrentSize cluster)) at 1 by lia.
    rewrite seqZ_app by lia. rewrite List.filter_app.
    rewrite (filter_none _ (seqZ (0 + _) _)).
    + rewrite app_nil_r. apply List.filter_ext_in.
      intros i Hi%In_seqZ. unfold occupied.
      replace (0 <=? i) with true by lia. replace (i <? CurrentSize cluster) with true by lia.
      simpl. by rewrite negb_involutive, andb_true_r.
    + intros i Hi%In_seqZ. replace (i <? CurrentSize cluster) with false by lia.
      apply andb_false_r.
  - apply filter_none. intros i Hi%In_seqZ.
    destruct (CurrentSize cluster <=? i) eqn:Hle; [|apply andb_false_r].
    destruct (occupied cluster i) eqn:Hocc.
    + apply occupied_below_CurrentSize in Hocc. lia.
    + unfold occupied in Hocc. replace (0 <=? i) with true in Hocc by lia.
      simpl in Hocc. by rewrite Hocc.
Qed.

(** *** Lookup *)

Lemma options_loop_transform (options : list AccessOption) (size : Z) (p : Z * Z) :
  fold_left (fun '(index, replica) (option : AccessOption) => option index size) options p =
  transform options size p.
Proof.
  revert p. induction options as [|option rest IH]; intros [index replica]; [done|].
  simpl. apply IH.
Qed.

Lemma GetNode_refines cluster (index : Z) (options : list AccessOption) :
  GetNode cluster index options = GetNode_spec cluster index options.
Proof.
  unfold GetNode, GetNode_spec. rewrite options_loop_transform.
  destruct (transform options (len (nodes cluster)) (index, 0)) as [i r]. simpl.
  case_bool_decide as Hi.
  - replace (i <? 0) with false by lia. replace (len (nodes cluster) <=? i) with false by lia.
    simpl. unfold slot. destruct (nodes cluster !! Z.to_nat i) as [[n|]|]; done.
  - destruct (i <? 0) eqn:Hneg; [done|].
    replace (len (nodes cluster) <=? i) with true by lia. done.
Qed.

Lemma GetNode_no_option cluster (index : Z) :
  GetNode cluster index [] =
    if bool_decide (0 <= index < len (nodes cluster)) then
      match nodes cluster !! Z.to_nat index with
      | Some (Some n) => (Some n, 0, true)
      | _ => (None, 0, false)
      end
    else (None, 0, false).
Proof. by rewrite GetNode_refines. Qed.

Lemma GetNode_out_of_range cluster (index : Z) :
  index < 0 \/ len (nodes cluster) <= index -> GetNode cluster index [] = (None, 0, false).
Proof. intros Hi. rewrite GetNode_no_option. case_bool_decide; [lia|done]. Qed.

(** *** Rendering *)

(** Beyond the expected size and the current size, an unoccupied slot
    writes nothing. *)
Lemma String_step_silent cluster (nodeCount : Z) (output : string) (i : Z) :
  unoccupied (slot_or_nil (nodes cluster) i) = true ->
  expectedSize cluster <= i -> nodeCount <= i ->
  String_step cluster nodeCount output i = output.
Proof.
  intros Hun He Hc. unfold String_step.
  replace (i <? expectedSize cluster) with false by lia.
  replace (i <? nodeCount) with false by lia. simpl.
  destruct (slot_or_nil (nodes cluster) i) as [n|]; [|done].
  simpl in Hun. by rewrite Hun.
Qed.

Lemma String_loop_silent cluster (nodeCount : Z) (output : string) (l : list Z) :
  (forall i, In i l ->
     unoccupied (slot_or_nil (nodes cluster) i) = true /\
     expectedSize cluster <= i /\ nodeCount <= i) ->
  fold_left (String_step cluster nodeCount) l output = output.
Proof.
  induction l as [|i l IH]; intros Hl; [done|].
  simpl. destruct (Hl i) as (Hun & He & Hc); [by left|].
  rewrite String_step_silent by done. apply IH. intros j Hj. apply Hl. by right.
Qed.

End RingFacts.

(** ** Properties of the ring *)

(** *** Lookup with [GetNode] *)

(** C1, as amended. [GetNode] looks only at whether the slot holds a
    node, not at the node's address: for every ring and every index [i] in
    [[0, len(registry))] whose slot holds a node with an empty client
    address, [GetNode(i)] with no options returns that very node, with
    replica offset 0 and [true]; without options, not-found is the answer
    exactly when the index is out of range or the slot is nil. *)
Theorem GetNode_addressless_is_found {N : Type} `{!Node N}
    (cluster : @ClusterRing N) (i : Z) (n : N) :
  0 <= i < len (nodes cluster) ->
  nodes cluster !! Z.to_nat i = Some (Some n) ->
  GetAddress n = "" ->
  GetNode cluster i [] = (Some n, 0, true) /\
  (forall j : Z,
     GetNode cluster j [] = (None, 0, false) <->
     (j < 0 \/ len (nodes cluster) <= j \/ nodes cluster !! Z.to_nat j = Some None)).
Proof.
  intros Hi Hn _. split.
  - rewrite GetNode_no_option, bool_decide_true by done. by rewrite Hn.
  - intros j. rewrite GetNode_no_option. case_bool_decide as Hj.
    + destruct (nodes cluster !! Z.to_nat j) as [[m|]|] eqn:Hm.
      * split; [done|]. intros [?|[?|?]]; [lia|lia|done].
      * split; [by auto|done].
      * apply lookup_ge_None in Hm. unfold len in Hj. lia.
    + split; [|done]. intros _. lia.
Qed.

Lemma GetNode_addressless_is_found_witness :
  GetNode ring_addressless 0 [] = (Some (addressless 0), 0, true).
Proof.
  apply (GetNode_addressless_is_found ring_addressless 0 (addressless 0)).
  - vm_compute. split; congruence.
  - reflexivity.
  - reflexivity.
Defined.

(** C1, as stated, fails on the ring whose slot 0 holds a node without an
    address: the lookup finds the node. *)
Lemma GetNode_addressless_counterexample :
  0 <= 0 < len (nodes ring_addressless) /\
  (exists n : node,
     nodes ring_addressless !! Z.to_nat 0 = Some (Some n) /\ GetAddress n = "") /\
  GetNode ring_addressless 0 [] <> (None, 0, false).
Proof.
  split; [vm_compute; split; congruence|]. split.
  - exists (addressless 0). split; reflexivity.
  - vm_compute. discriminate.
Qed.

(** C2. [GetNode(index, options...)] applies the options one after the
    other to the pair of the index and the replica offset, starting from
    replica offset 0 and with the slot count as size; when the final index
    is outside [[0, len(registry))] or its slot is nil the result is
    [(nil, 0, false)], otherwise it is the node of that slot, the final
    replica offset and [true]. *)
Theorem GetNode_applies_options_in_sequence {N : Type} `{!Node N}
    (cluster : @ClusterRing N) (index : Z) (options : list AccessOption) :
  GetNode cluster index options = GetNode_spec cluster index options /\
  (forall (option : AccessOption) (p : Z * Z),
     transform (options ++ [option]) (len (nodes cluster)) p =
     option (transform options (len (nodes cluster)) p).1 (len (nodes cluster))) /\
  let final := transform options (len (nodes cluster)) (index, 0) in
  ((final.1 < 0 \/ len (nodes cluster) <= final.1 \/
    nodes cluster !! Z.to_nat final.1 = Some None) ->
   GetNode cluster index options = (None, 0, false)) /\
  (forall n : N,
     0 <= final.1 < len (nodes cluster) ->
     nodes cluster !! Z.to_nat final.1 = Some (Some n) ->
     GetNode cluster index options = (Some n, final.2, true)).
Proof.
  split; [apply GetNode_refines|]. split.
  { intros option. induction options as [|o rest IH]; intros p; [done|]. simpl. apply IH. }
  simpl. rewrite GetNode_refines. unfold GetNode_spec.
  destruct (transform options (len (nodes cluster)) (index, 0)) as [i r]. simpl. split.
  - intros Hout. case_bool_decide as Hi; [|done].
    destruct Hout as [?|[?|Hnil]]; [lia|lia|]. by rewrite Hnil.
  - intros n Hi Hn. rewrite bool_decide_true by done. by rewrite Hn.
Qed.

Lemma GetNode_applies_options_in_sequence_witness :
  GetNode ring_0_2 0 [replica_option 2] = (Some (node_at 2), 2, true).
Proof.
  pose proof (GetNode_applies_options_in_sequence ring_0_2 0 [replica_option 2])
    as (_ & _ & _ & Hfound).
  apply (Hfound (node_at 2)).
  - vm_compute. split; congruence.
  - reflexivity.
Defined.

(** *** Extent, missing and free slots *)

(** C5. [CurrentSize] is one plus the highest index of an occupied slot,
    and 0 when no slot is occupied; holes below that index do not count:
    after nodes 0 and 2 have been added to a new ring, it is 3. *)
Theorem CurrentSize_is_highest_occupied_plus_one {N : Type} `{!Node N}
    (cluster : @ClusterRing N) :
  ((forall i : Z, occupied cluster i = false) -> CurrentSize cluster = 0) /\
  (forall k : Z,
     occupied cluster k = true ->
     (forall j : Z, k < j -> occupied cluster j = false) ->
     CurrentSize cluster = k + 1) /\
  (forall (n0 n2 : N) (keyspace dataCenter : string) (expectedSize replicationFactor : Z),
     GetId n0 = 0 -> GetId n2 = 2 -> GetAddress n0 <> "" -> GetAddress n2 <> "" ->
     let ring := NewHashRing keyspace dataCenter expectedSize replicationFactor in
     CurrentSize (Add n2 (Add n0 ring).2).2 = 3 /\
     CurrentSize (Add n0 (Add n2 ring).2).2 = 3).
Proof.
  split; [apply CurrentSize_no_node|]. split; [apply CurrentSize_highest|].
  intros n0 n2 ks dc e r H0 H2 Ha0 Ha2 ring.
  apply String.eqb_neq in Ha0, Ha2.
  assert (forall z : Z, 0 <= z <= 2 -> 0 <= z < int_max) as Hsmall
    by (unfold int_max; lia).
  split.
  - rewrite (Add_grow ring n0) by (rewrite H0; first [by apply Hsmall | done]).
    rewrite H0. simpl.
    rewrite Add_grow by (rewrite H2; first [by apply Hsmall | done]).
    rewrite H2. unfold CurrentSize. simpl. by rewrite Ha2.
  - rewrite (Add_grow ring n2) by (rewrite H2; first [by apply Hsmall | done]).
    rewrite H2. simpl.
    rewrite Add_in_place by (by rewrite H0).
    rewrite H0. unfold CurrentSize. simpl. by rewrite Ha2.
Qed.

Lemma CurrentSize_is_highest_occupied_plus_one_witness : CurrentSize ring_0_2 = 2 + 1.
Proof.
  apply (proj1 (proj2 (CurrentSize_is_highest_occupied_plus_one ring_0_2)) 2).
  - reflexivity.
  - intros j Hj. unfold occupied, slot_or_nil.
    replace (j <? len (nodes ring_0_2)) with false; [apply andb_false_r|].
    symmetry. apply Z.ltb_ge. change (len (nodes ring_0_2)) with 3. lia.
Defined.

(** C3, as amended. For a ring whose occupied slots are exactly 0, 2 and
    4, [CurrentSize()] is 5 and [MissingAndFreeNodeIds()] returns
    missing = [1 3] and an empty free list. *)
Theorem MissingAndFreeNodeIds_of_0_2_4 {N : Type} `{!Node N} (cluster : @ClusterRing N) :
  (forall i : Z, occupied cluster i = true <-> i = 0 \/ i = 2 \/ i = 4) ->
  CurrentSize cluster = 5 /\ MissingAndFreeNodeIds cluster = ([1; 3], []).
Proof.
  intros Hocc.
  assert (CurrentSize cluster = 5) as Hcs.
  { apply (CurrentSize_highest cluster 4).
    - apply Hocc. lia.
    - intros j Hj. destruct (occupied cluster j) eqn:Hoj; [|done].
      apply Hocc in Hoj. lia. }
  split; [done|].
  rewrite MissingAndFreeNodeIds_spec, Hcs.
  assert (forall i, i = 1 \/ i = 3 -> occupied cluster i = false) as Hfree.
  { intros i Hi. destruct (occupied cluster i) eqn:Hoi; [|done]. apply Hocc in Hoi. lia. }
  change (seqZ 0 5) with [0; 1; 2; 3; 4]. simpl.
  rewrite (proj2 (Hocc 0)), (proj2 (Hocc 2)), (proj2 (Hocc 4)) by lia.
  rewrite !Hfree by lia. done.
Qed.

Lemma ring_0_2_4_occupied (i : Z) : occupied ring_0_2_4 i = true <-> i = 0 \/ i = 2 \/ i = 4.
Proof.
  rewrite occupied_spec. change (len (nodes ring_0_2_4)) with 5. split.
  - intros [Hi Hocc].
    assert (i = 0 \/ i = 1 \/ i = 2 \/ i = 3 \/ i = 4) as [->|[->|[->|[->| ->]]]] by lia;
      first [lia | discriminate Hocc].
  - intros [->|[->| ->]]; (split; [lia|reflexivity]).
Qed.

Lemma MissingAndFreeNodeIds_of_0_2_4_witness :
  CurrentSize ring_0_2_4 = 5 /\ MissingAndFreeNodeIds ring_0_2_4 = ([1; 3], []).
Proof. apply (MissingAndFreeNodeIds_of_0_2_4 ring_0_2_4), ring_0_2_4_occupied. Defined.

(** C3, as stated, fails on the ring to which nodes 0, 2 and 4 have been
    added: its current size is 5, slot 3 is missing as well and no slot is
    free. *)
Lemma MissingAndFreeNodeIds_0_2_4_counterexample :
  (forall i : Z, occupied ring_0_2_4 i = true <-> i = 0 \/ i = 2 \/ i = 4) /\
  ~ (CurrentSize ring_0_2_4 = 3 /\ MissingAndFreeNodeIds ring_0_2_4 = ([1], [4])).
Proof.
  split; [apply ring_0_2_4_occupied|].
  intros [Hcs _]. vm_compute in Hcs. discriminate Hcs.
Qed.

(** C10. In every ring that [NewHashRing], [Add] and [Remove] can
    produce, no occupied slot index is at or above [CurrentSize()], and
    the free list of [MissingAndFreeNodeIds()] is empty. *)
Theorem MissingAndFreeNodeIds_free_is_empty {N : Type} `{!Node N} (cluster : @ClusterRing N) :
  reachable cluster ->
  (forall i : Z, occupied cluster i = true -> i < CurrentSize cluster) /\
  (MissingAndFreeNodeIds cluster).2 = [].
Proof.
  intros _. split.
  - apply occupied_below_CurrentSize.
  - by rewrite MissingAndFreeNodeIds_spec.
Qed.

Lemma ring_0_2_4_reachable : reachable ring_0_2_4.
Proof. repeat apply reachable_add. apply reachable_new. Qed.

Lemma MissingAndFreeNodeIds_free_is_empty_witness : (MissingAndFreeNodeIds ring_0_2_4).2 = [].
Proof. apply (MissingAndFreeNodeIds_free_is_empty ring_0_2_4), ring_0_2_4_reachable. Defined.

(** *** Rendering with [String] *)

(** C4, as amended. For a ring with expected size 3, nodes of ids 0 and 2
    in slots 0 and 2, slot 1 nil, no occupied slot above and [nextSize]
    0, [String()] is ["[0 _ 2] size 3 (1 missing [1])"]: the current size
    is 3, equal to the expected size, so the size is printed alone. *)
Theorem String_of_0_2_expecting_3 {N : Type} `{!Node N}
    (cluster : @ClusterRing N) (n0 n2 : N) (rest : list (option N)) :
  expectedSize cluster = 3 ->
  nextSize cluster = 0 ->
  nodes cluster = Some n0 :: None :: Some n2 :: rest ->
  Forall (fun s => unoccupied s = true) rest ->
  GetId n0 = 0 -> GetId n2 = 2 ->
  GetAddress n0 <> "" -> GetAddress n2 <> "" ->
  CurrentSize cluster = 3 /\
  ClusterRing_String cluster = "[0 _ 2] size 3 (1 missing [1])".
Proof.
  intros He Hn Hns Hrest H0 H2 Ha0 Ha2.
  apply String.eqb_neq in Ha0, Ha2.
  assert (len (nodes cluster) = 3 + len rest) as Hlen.
  { rewrite Hns. unfold len. simpl. lia. }
  pose proof (len_nonneg rest) as Hrest_len.
  assert (forall j : nat, (3 <= j)%nat -> unoccupied (slot (nodes cluster) j) = true) as Habove.
  { intros j Hj. rewrite Hns. unfold slot.
    destruct j as [|[|[|j]]]; [lia..|]. simpl.
    destruct (rest !! j) as [s|] eqn:Hs; [|done].
    simpl. by apply (Forall_lookup_1 _ _ _ _ Hrest Hs). }
  assert (slot_or_nil (nodes cluster) 0 = Some n0) as Hs0.
  { unfold slot_or_nil. replace (0 <? len (nodes cluster)) with true by lia. by rewrite Hns. }
  assert (slot_or_nil (nodes cluster) 1 = None) as Hs1.
  { unfold slot_or_nil. replace (1 <? len (nodes cluster)) with true by lia. by rewrite Hns. }
  assert (slot_or_nil (nodes cluster) 2 = Some n2) as Hs2.
  { unfold slot_or_nil. replace (2 <? len (nodes cluster)) with true by lia. by rewrite Hns. }
  assert (CurrentSize cluster = 3) as Hcs.
  { unfold CurrentSize. rewrite (CurrentSize_from_top _ _ 2); [done| | |].
    - unfold len in Hlen. lia.
    - rewrite Hns. simpl. done.
    - intros j Hj. apply Habove. lia. }
  split; [done|].
  unfold ClusterRing_String.
  rewrite MissingAndFreeNodeIds_spec, !Hcs, He, Hn.
  replace (len (nodes cluster) <? 3) with false by lia.
  rewrite Hlen, seqZ_app, fold_left_app by lia.
  rewrite (String_loop_silent cluster 3 _ (seqZ (0 + 3) (len rest))).
  - change (seqZ 0 3) with [0; 1; 2]. unfold occupied. simpl.
    unfold String_step. rewrite Hs0, Hs1, Hs2, He, H0, H2. simpl.
    rewrite Ha0, Ha2. reflexivity.
  - intros i Hi%In_seqZ. rewrite He. split; [|lia].
    unfold slot_or_nil. destruct (i <? len (nodes cluster)); [|done].
    apply Habove. lia.
Qed.

Lemma String_of_0_2_expecting_3_witness :
  CurrentSize ring_0_2 = 3 /\
  ClusterRing_String ring_0_2 = "[0 _ 2] size 3 (1 missing [1])".
Proof.
  apply (String_of_0_2_expecting_3 ring_0_2 (node_at 0) (node_at 2) []).
  - reflexivity.
  - reflexivity.
  - reflexivity.
  - constructor.
  - reflexivity.
  - reflexivity.
  - simpl. discriminate.
  - simpl. discriminate.
Defined.

(** C4, as stated, fails on the ring of expected size 3 to which nodes 0
    and 2 have been added: the size annotation is ["size 3"], not
    ["size 2->3"]. *)
Lemma String_of_0_2_counterexample :
  expectedSize ring_0_2 = 3 /\ nextSize ring_0_2 = 0 /\
  nodes ring_0_2 = [Some (node_at 0); None; Some (node_at 2)] /\
  ClusterRing_String ring_0_2 <> "[0 _ 2] size 2->3 (1 missing [1])".
Proof.
  repeat split; try reflexivity.
  vm_compute. discriminate.
Qed.

(** *** Buckets *)

Lemma remainder_bucket_in_range : jump_Hash_contract remainder_bucket.
Proof. intros key numBuckets _ Hn. unfold remainder_bucket. by apply Z.mod_pos_bound. Qed.

(** C6. Under the contract of the jump hash, for every bucket count
    [count > 0] and every 64-bit key hash [h],
    [FindBucketGivenSize(h, count)] is in [[0, count)]; and for every ring
    [FindBucket(h)] is [FindBucketGivenSize(h, expectedSize)], whatever
    the slots of the ring hold. *)
Theorem FindBucket_in_range_under_expected_size {N : Type} `{!Node N}
    (jump_Hash : Z -> Z -> Z) (cluster : @ClusterRing N) (h count : Z) :
  jump_Hash_contract jump_Hash ->
  0 <= h <= uint64_max -> 0 < count ->
  0 <= FindBucketGivenSize jump_Hash cluster h count < count /\
  FindBucket jump_Hash cluster h =
    FindBucketGivenSize jump_Hash cluster h (expectedSize cluster) /\
  (forall ns : list (option N),
     FindBucket jump_Hash (set_nodes cluster ns) h = FindBucket jump_Hash cluster h).
Proof.
  intros Hjump Hh Hcount. unfold FindBucketGivenSize, FindBucket, ExpectedSize.
  split; [by apply Hjump|]. by split.
Qed.

Lemma FindBucket_in_range_under_expected_size_witness :
  0 <= FindBucketGivenSize remainder_bucket ring_0_2 1234567 3 < 3 /\
  FindBucket remainder_bucket ring_0_2 1234567 =
    FindBucketGivenSize remainder_bucket ring_0_2 1234567 (expectedSize ring_0_2).
Proof.
  destruct (FindBucket_in_range_under_expected_size remainder_bucket ring_0_2 1234567 3)
    as (Hrange & Heq & _).
  - exact remainder_bucket_in_range.
  - vm_compute. split; congruence.
  - reflexivity.
  - split; [exact Hrange | exact Heq].
Defined.

(** *** Membership *)

(** C7, where the code departs from it. [Remove] of a negative id reads
    [cluster.nodes[nodeId]] and panics, on every ring, where [GetNode]
    answers not-found. *)
Theorem Remove_negative_id_panics {N : Type} `{!Node N} (cluster : @ClusterRing N) :
  Remove (-1) cluster = (Panic, cluster) /\
  GetNode cluster (-1) [] = (None, 0, false).
Proof.
  split.
  - apply Remove_negative. lia.
  - apply GetNode_out_of_range. lia.
Qed.

(** What holds of [Remove] on the ids that are not negative, and of
    [GetNode] on every index. *)
Lemma Remove_total_from_zero {N : Type} `{!Node N} (cluster : @ClusterRing N) (nodeId : Z) :
  0 <= nodeId ->
  exists previous : option N,
    (Remove nodeId cluster).1 = Ok previous /\
    previous = slot_or_nil (nodes cluster) nodeId /\
    slot_or_nil (nodes (Remove nodeId cluster).2) nodeId = None.
Proof.
  intros Hid. unfold slot_or_nil.
  destruct (decide (nodeId < len (nodes cluster))) as [Hin|Hout].
  - rewrite Remove_in_range by lia. simpl.
    replace (nodeId <? len (nodes cluster)) with true by lia.
    eexists. split; [done|]. split; [done|].
    destruct (nodeId <? _); [|done]. apply slot_insert_eq. unfold len in Hin. lia.
  - rewrite Remove_beyond by lia. simpl.
    replace (nodeId <? len (nodes cluster)) with false by lia. by exists None.
Qed.

(** C8. [Add] and [Remove] touch the slot they are given and no other, and
    the registry never gets shorter. [Add(n)] keeps every entry at another
    index, fills the slots it creates with nil, brings the length to
    exactly [n.GetId() + 1] when it was not above [n.GetId()] and keeps it
    otherwise, and puts [n] at index [n.GetId()]; [Remove(id)] keeps the
    length and every entry at another index, and leaves nil in slot
    [id]. *)
Theorem Add_Remove_touch_target_slot_only {N : Type} `{!Node N} (cluster : @ClusterRing N) :
  (forall n : N,
     len (nodes cluster) <= len (nodes (Add n cluster).2) /\
     (forall (j : nat) (x : option N),
        Z.of_nat j <> GetId n -> nodes cluster !! j = Some x ->
        nodes (Add n cluster).2 !! j = Some x) /\
     (forall j : nat,
        Z.of_nat j <> GetId n ->
        (length (nodes cluster) <= j < length (nodes (Add n cluster).2))%nat ->
        nodes (Add n cluster).2 !! j = Some None) /\
     (0 <= GetId n < int_max ->
        (Add n cluster).1 = Ok tt /\
        (len (nodes cluster) <= GetId n ->
           len (nodes (Add n cluster).2) = GetId n + 1) /\
        (GetId n < len (nodes cluster) ->
           len (nodes (Add n cluster).2) = len (nodes cluster)) /\
        nodes (Add n cluster).2 !! Z.to_nat (GetId n) = Some (Some n))) /\
  (forall nodeId : Z,
     len (nodes (Remove nodeId cluster).2) = len (nodes cluster) /\
     (forall j : nat,
        Z.of_nat j <> nodeId ->
        nodes (Remove nodeId cluster).2 !! j = nodes cluster !! j) /\
     (0 <= nodeId < len (nodes cluster) ->
        (Remove nodeId cluster).1 = Ok (slot (nodes cluster) (Z.to_nat nodeId)) /\
        nodes (Remove nodeId cluster).2 !! Z.to_nat nodeId = Some None)).
Proof.
  split.
  - intros n. destruct (Add_frame cluster n) as (Hlen & Hslots & _).
    split; [done|]. split; [|split].
    + intros j x Hj Hx. specialize (Hslots j Hj).
      rewrite (slot_lookup _ _ _ Hx) in Hslots.
      destruct (nodes (Add n cluster).2 !! j) as [y|] eqn:Hy.
      * by rewrite (slot_lookup _ _ _ Hy) in Hslots; subst.
      * apply lookup_ge_None in Hy. apply lookup_lt_Some in Hx. unfold len in Hlen. lia.
    + intros j Hj Hrange. specialize (Hslots j Hj).
      rewrite (slot_out_of_range (nodes cluster)) in Hslots by lia.
      destruct (nodes (Add n cluster).2 !! j) as [y|] eqn:Hy.
      * by rewrite (slot_lookup _ _ _ Hy) in Hslots; subst.
      * apply lookup_ge_None in Hy. lia.
    + intros Hid. destruct (decide (GetId n < len (nodes cluster))) as [Hin|Hout].
      * rewrite Add_in_place by lia. simpl. split; [done|].
        unfold len in *. rewrite length_insert.
        split; [lia|]. split; [done|]. apply list_lookup_insert_eq. lia.
      * rewrite Add_grow by lia. simpl. split; [done|].
        pose proof (grown_length (nodes cluster) (GetId n + 1)) as Hgrown.
        unfold len in *. rewrite length_insert.
        split; [lia|]. split; [lia|]. apply list_lookup_insert_eq. lia.
  - intros nodeId. destruct (Remove_frame cluster nodeId) as (Hlen & _).
    split; [done|]. split.
    + intros j Hj. destruct (decide (nodeId < 0)) as [Hneg|Hpos].
      { by rewrite Remove_negative. }
      destruct (decide (nodeId < len (nodes cluster))) as [Hin|Hout].
      * rewrite Remove_in_range by lia. simpl. apply list_lookup_insert_ne. lia.
      * by rewrite Remove_beyond by lia.
    + intros Hid. rewrite Remove_in_range by done. simpl. split; [done|].
      apply list_lookup_insert_eq. unfold len in Hid. lia.
Qed.

Lemma Add_Remove_touch_target_slot_only_witness :
  (Add (node_at 2) empty_ring).1 = Ok tt /\
  len (nodes (Add (node_at 2) empty_ring).2) = 3 /\
  nodes (Remove 0 ring_0_2).2 !! 0%nat = Some None.
Proof.
  destruct (Add_Remove_touch_target_slot_only empty_ring) as [Hadd _].
  destruct (Hadd (node_at 2)) as (_ & _ & _ & Hplaced).
  destruct Hplaced as (Hok & Hgrown & _ & _).
  { vm_compute. split; congruence. }
  destruct (Add_Remove_touch_target_slot_only ring_0_2) as [_ Hremove].
  destruct (Hremove 0) as (_ & _ & Hcleared).
  destruct Hcleared as [_ Hnil].
  { vm_compute. split; congruence. }
  split; [exact Hok|]. split; [|exact Hnil].
  apply Hgrown. vm_compute. congruence.
Defined.

(** *** Sizes *)

(** C9. [SetExpectedSize] and [SetReplicationFactor] ignore an argument
    that is zero or negative and keep the value they had, as in
    [SetExpectedSize(5)] followed by [SetExpectedSize(0)]; [SetNextSize]
    stores whatever it is given, zero included. *)
Theorem setters_guard_positive_only {N : Type} `{!Node N} (cluster : @ClusterRing N) (v : Z) :
  (v <= 0 ->
     SetExpectedSize cluster v = cluster /\ SetReplicationFactor cluster v = cluster) /\
  (0 < v ->
     ExpectedSize (SetExpectedSize cluster v) = v /\
     ReplicationFactor (SetReplicationFactor cluster v) = v) /\
  ExpectedSize (SetExpectedSize (SetExpectedSize cluster 5) 0) = 5 /\
  NextSize (SetNextSize cluster v) = v /\
  NextSize (SetNextSize cluster 0) = 0.
Proof.
  unfold SetExpectedSize, SetReplicationFactor, SetNextSize. repeat split.
  - replace (0 <? v) with false by lia. done.
  - replace (0 <? v) with false by lia. done.
  - replace (0 <? v) with true by lia. done.
  - replace (0 <? v) with true by lia. done.
Qed.

Lemma setters_guard_positive_only_witness :
  SetExpectedSize ring_0_2 (-4) = ring_0_2 /\
  ReplicationFactor (SetReplicationFactor ring_0_2 7) = 7.
Proof.
  split.
  - apply (proj1 (setters_guard_positive_only ring_0_2 (-4))). lia.
  - apply (proj1 (proj2 (setters_guard_positive_only ring_0_2 7))). lia.
Defined.

(** ** Further properties of the ring *)

Section LookupFacts.

Context {N : Type} `{!Node N}.

Implicit Types (cluster : @ClusterRing N) (ns : list (option N)) (n : N).

(** Without options, the lookup reads the slot, an index past the end
    reading as nil. *)
Lemma GetNode_by_slot cluster (j : Z) :
  GetNode cluster j [] =
    if j <? 0 then (None, 0, false)
    else match slot (nodes cluster) (Z.to_nat j) with
         | Some n => (Some n, 0, true)
         | None => (None, 0, false)
         end.
Proof.
  rewrite GetNode_no_option. destruct (j <? 0) eqn:Hneg.
  - rewrite bool_decide_false by lia. done.
  - case_bool_decide as Hj.
    + unfold slot. destruct (nodes cluster !! Z.to_nat j) as [[n|]|]; done.
    + rewrite slot_out_of_range; [done|]. unfold len in Hj. lia.
Qed.

Lemma slot_or_nil_slot ns (j : Z) : 0 <= j -> slot_or_nil ns j = slot ns (Z.to_nat j).
Proof.
  intros Hj. unfold slot_or_nil. destruct (j <? len ns) eqn:Hlt; [done|].
  rewrite slot_out_of_range; [done|]. unfold len in Hlt. lia.
Qed.

(** The slot that [Add] fills, for an id that names a slot. *)
Lemma Add_slot_eq cluster n :
  0 <= GetId n < int_max ->
  (Add n cluster).1 = Ok tt /\
  slot (nodes (Add n cluster).2) (Z.to_nat (GetId n)) = Some n.
Proof.
  intros Hid. destruct (decide (GetId n < len (nodes cluster))) as [Hin|Hout].
  - rewrite Add_in_place by lia. simpl. split; [done|].
    apply slot_insert_eq. unfold len in Hin. lia.
  - rewrite Add_grow by lia. simpl. split; [done|].
    apply slot_insert_eq.
    pose proof (grown_length (nodes cluster) (GetId n + 1)). unfold len in *. lia.
Qed.

End LookupFacts.

(** X1. A node that is added is found: for an id that names a slot,
    [Add] returns normally and [GetNode] of that id, without options,
    returns the node just added, whatever its address and whatever the slot
    held before. *)
Theorem Add_then_GetNode {N : Type} `{!Node N} (cluster : @ClusterRing N) (n : N) :
  0 <= GetId n < int_max ->
  (Add n cluster).1 = Ok tt /\
  GetNode (Add n cluster).2 (GetId n) [] = (Some n, 0, true).
Proof.
  intros Hid. destruct (Add_slot_eq cluster n Hid) as [Hok Hslot].
  split; [done|]. rewrite GetNode_by_slot, Hslot.
  replace (GetId n <? 0) with false by lia. done.
Qed.

Lemma Add_then_GetNode_witness :
  GetNode (Add (addressless 1) ring_0_2).2 1 [] = (Some (addressless 1), 0, true).
Proof.
  destruct (Add_then_GetNode ring_0_2 (addressless 1)) as [_ Hfound].
  - vm_compute. split; congruence.
  - exact Hfound.
Defined.

(** X2. A node that is removed is no longer found, and [Remove] hands
    back what the lookup was finding: after [Remove(id)], [GetNode(id)]
    without options is not-found for every id, and for [id >= 0] the value
    that [Remove] returns is the node that [GetNode(id)] returned before,
    nil when it returned none. *)
Theorem Remove_then_GetNode {N : Type} `{!Node N} (cluster : @ClusterRing N) (nodeId : Z) :
  GetNode (Remove nodeId cluster).2 nodeId [] = (None, 0, false) /\
  (0 <= nodeId -> (Remove nodeId cluster).1 = Ok (GetNode cluster nodeId []).1.1).
Proof.
  split.
  - destruct (decide (0 <= nodeId < len (nodes cluster))) as [Hin|Hout].
    + rewrite Remove_in_range by done. rewrite GetNode_by_slot. simpl.
      replace (nodeId <? 0) with false by lia.
      rewrite slot_insert_eq; [done|]. unfold len in Hin. lia.
    + apply GetNode_out_of_range.
      destruct (Remove_frame cluster nodeId) as [-> _]. lia.
  - intros Hid. rewrite (GetNode_by_slot cluster).
    replace (nodeId <? 0) with false by lia.
    destruct (decide (nodeId < len (nodes cluster))) as [Hin|Hout].
    + rewrite Remove_in_range by lia. simpl.
      by destruct (slot (nodes cluster) (Z.to_nat nodeId)).
    + rewrite Remove_beyond by lia. simpl.
      rewrite slot_out_of_range; [done|]. unfold len in Hout. lia.
Qed.

Lemma Remove_then_GetNode_witness :
  (Remove 2 ring_0_2).1 = Ok (Some (node_at 2)) /\
  GetNode (Remove 2 ring_0_2).2 2 [] = (None, 0, false).
Proof.
  destruct (Remove_then_GetNode ring_0_2 2) as [Hgone Hback].
  split; [|exact Hgone]. apply Hback. lia.
Defined.

(** X3. [Add] and [Remove] change the lookup at their own index only:
    for every other index, [GetNode] without options returns after the
    call what it returned before, also where [Add] has extended the
    registry and where the call has panicked. *)
Theorem GetNode_elsewhere_unchanged {N : Type} `{!Node N}
    (cluster : @ClusterRing N) (j : Z) :
  (forall n : N, j <> GetId n -> GetNode (Add n cluster).2 j [] = GetNode cluster j []) /\
  (forall nodeId : Z,
     j <> nodeId -> GetNode (Remove nodeId cluster).2 j [] = GetNode cluster j []).
Proof.
  split.
  - intros n Hj. rewrite !GetNode_by_slot. destruct (j <? 0) eqn:Hneg; [done|].
    destruct (Add_frame cluster n) as (_ & Hslots & _). rewrite Hslots by lia. done.
  - intros nodeId Hj. rewrite !GetNode_by_slot. destruct (j <? 0) eqn:Hneg; [done|].
    destruct (Remove_frame cluster nodeId) as (_ & Hslots & _). rewrite Hslots by lia. done.
Qed.

Lemma GetNode_elsewhere_unchanged_witness :
  GetNode (Add (node_at 4) ring_0_2).2 3 [] = GetNode ring_0_2 3 [] /\
  GetNode (Remove 0 ring_0_2).2 2 [] = GetNode ring_0_2 2 [].
Proof.
  destruct (GetNode_elsewhere_unchanged ring_0_2 3) as [Hadd _].
  destruct (GetNode_elsewhere_unchanged ring_0_2 2) as [_ Hremove].
  split; [apply Hadd | apply Hremove]; vm_compute; congruence.
Defined.

Section HistoryFacts.

Context {N : Type} `{!Node N}.

Implicit Types (cluster : @ClusterRing N) (ns : list (option N)) (n m : N).

Lemma slot_Some ns (i : nat) m : slot ns i = Some m <-> ns !! i = Some (Some m).
Proof.
  unfold slot. destruct (ns !! i) as [[x|]|]; simpl; split; intros Hx; by simplify_eq.
Qed.

(** A node in the ring after [Add] is the node added, in its slot, or was
    there before. *)
Lemma Add_lookup_cases cluster n (i : nat) m :
  nodes (Add n cluster).2 !! i = Some (Some m) ->
  (m = n /\ Z.of_nat i = GetId n) \/ nodes cluster !! i = Some (Some m).
Proof.
  intros Hm. destruct (decide (Z.of_nat i = GetId n)) as [Heq|Hne].
  - destruct (decide (GetId n < int_max)) as [Hlt|Hge].
    + destruct (Add_slot_eq cluster n) as [_ Hslot]; [lia|].
      apply slot_Some in Hslot. left. split; [|done].
      replace (Z.to_nat (GetId n)) with i in Hslot by lia. congruence.
    + revert Hm.
      unfold Add, mbind, M_bind, bind, get_nodes, when_, lift, put_nodes; simpl.
      pose proof (wrap_int_range (GetId n + 1)) as Hw.
      destruct (len (nodes cluster) <? wrap_int (GetId n + 1)) eqn:Hgrow; simpl.
      * apply Z.ltb_lt in Hgrow.
        pose proof (grown_length _ _ Hgrow) as Hlen.
        rewrite store_index_out_of_range by lia. simpl.
        intros Hm. right.
        apply slot_Some. apply slot_Some in Hm. by rewrite grown_slot in Hm.
      * unfold ret; simpl. unfold store_index.
        destruct ((GetId n <? 0) || (len (nodes cluster) <=? GetId n)) eqn:Hst; simpl;
          [by right|].
        intros Hm. apply orb_false_iff in Hst as [_ Hst]. apply Z.leb_gt in Hst.
        left. split; [|done].
        replace i with (Z.to_nat (GetId n)) in Hm by lia.
        rewrite list_lookup_insert_eq in Hm; [congruence|]. unfold len in Hst. lia.
  - right. destruct (Add_frame cluster n) as (_ & Hslots & _).
    apply slot_Some. rewrite <- Hslots by done. by apply slot_Some.
Qed.

(** A node in the ring after [Remove] was there before. *)
Lemma Remove_lookup_cases cluster (nodeId : Z) (i : nat) m :
  nodes (Remove nodeId cluster).2 !! i = Some (Some m) ->
  nodes cluster !! i = Some (Some m).
Proof.
  destruct (decide (nodeId < 0)) as [Hneg|Hpos]; [by rewrite Remove_negative|].
  destruct (decide (nodeId < len (nodes cluster))) as [Hin|Hout].
  - rewrite Remove_in_range by lia. simpl. intros Hm.
    destruct (decide (Z.to_nat nodeId = i)) as [<-|Hne].
    + rewrite list_lookup_insert_eq in Hm; [done|]. unfold len in Hin. lia.
    + by rewrite list_lookup_insert_ne in Hm.
  - by rewrite Remove_beyond by lia.
Qed.

Lemma setters_keep_nodes cluster (v : Z) :
  nodes (SetExpectedSize cluster v) = nodes cluster /\
  nodes (SetNextSize cluster v) = nodes cluster /\
  nodes (SetReplicationFactor cluster v) = nodes cluster.
Proof.
  unfold SetExpectedSize, SetReplicationFactor, SetNextSize.
  by destruct (0 <? v).
Qed.

End HistoryFacts.

(** X4. Every node of a ring sits in the slot of its own id: in a ring
    made by [NewHashRing] and any sequence of [Add], [Remove] and the three
    setters, a node stored at index [i] has [GetId() = i], so that
    [GetNode(j)] without options can only return a node whose id is [j]. *)
Theorem node_sits_in_slot_of_its_id {N : Type} `{!Node N} (cluster : @ClusterRing N) :
  ring_history cluster ->
  (forall (i : nat) (n : N), nodes cluster !! i = Some (Some n) -> GetId n = Z.of_nat i) /\
  (forall (j r : Z) (n : N), GetNode cluster j [] = (Some n, r, true) -> GetId n = j).
Proof.
  intros Hhist.
  assert (forall (i : nat) (n : N),
            nodes cluster !! i = Some (Some n) -> GetId n = Z.of_nat i) as Hown.
  { induction Hhist as [ks dc e r|cluster n Hh IH|cluster nodeId Hh IH
                        |cluster v Hh IH|cluster v Hh IH|cluster v Hh IH]; intros i m Hm.
    - done.
    - apply Add_lookup_cases in Hm as [[-> Hi]|Hm]; [done|by apply IH].
    - apply Remove_lookup_cases in Hm. by apply IH.
    - rewrite (proj1 (setters_keep_nodes cluster v)) in Hm. by apply IH.
    - rewrite (proj1 (proj2 (setters_keep_nodes cluster v))) in Hm. by apply IH.
    - rewrite (proj2 (proj2 (setters_keep_nodes cluster v))) in Hm. by apply IH. }
  split; [done|].
  intros j r n. rewrite GetNode_by_slot. destruct (j <? 0) eqn:Hneg; [done|].
  destruct (slot (nodes cluster) (Z.to_nat j)) as [m|] eqn:Hslot; [|done].
  intros [= ->]. apply slot_Some, Hown in Hslot. lia.
Qed.

Lemma ring_0_2_4_history : ring_history ring_0_2_4.
Proof. repeat apply history_Add. apply history_new. Qed.

Lemma node_sits_in_slot_of_its_id_witness : GetId (node_at 4) = Z.of_nat 4.
Proof.
  apply (proj1 (node_sits_in_slot_of_its_id ring_0_2_4 ring_0_2_4_history) 4%nat (node_at 4)).
  reflexivity.
Defined.

(** *** The missing list *)

Lemma filter_split_length {A : Type} (f : A -> bool) (l : list A) :
  (length (List.filter f l) + length (List.filter (fun x => negb (f x)) l))%nat = length l.
Proof.
  induction l as [|x l IH]; [done|]. simpl. destruct (f x); simpl; lia.
Qed.

Lemma filter_StronglySorted {A : Type} (R : A -> A -> Prop) (f : A -> bool) (l : list A) :
  StronglySorted R l -> StronglySorted R (List.filter f l).
Proof.
  induction 1 as [|x l Hl IH Hx]; simpl; [constructor|].
  destruct (f x); [|done]. constructor; [done|].
  apply List.Forall_forall. intros y [Hy _]%List.filter_In.
  by apply (proj1 (List.Forall_forall _ _) Hx).
Qed.

Lemma seqZ_StronglySorted (m n : Z) : StronglySorted Z.lt (seqZ m n).
Proof.
  remember (Z.to_nat n) as k eqn:Hk. revert m n Hk.
  induction k as [|k IH]; intros m n Hk.
  - rewrite seqZ_nil by lia. constructor.
  - rewrite seqZ_cons by lia. constructor; [apply IH; lia|].
    apply List.Forall_forall. intros x Hx%In_seqZ. lia.
Qed.

(** X5. The missing list of [MissingAndFreeNodeIds] is exactly the set of
    holes of the ring: it holds the indices below [CurrentSize()] whose
    slot is not occupied, each once and in increasing order; together with
    the occupied slots they make up the current size. *)
Theorem missing_list_is_the_holes {N : Type} `{!Node N} (cluster : @ClusterRing N) :
  (forall i : Z,
     In i (MissingAndFreeNodeIds cluster).1 <->
     0 <= i < CurrentSize cluster /\ occupied cluster i = false) /\
  StronglySorted Z.lt (MissingAndFreeNodeIds cluster).1 /\
  CurrentSize cluster = len (MissingAndFreeNodeIds cluster).1 + occupied_count cluster.
Proof.
  rewrite MissingAndFreeNodeIds_spec. simpl. split; [|split].
  - intros i. rewrite List.filter_In, In_seqZ, negb_true_iff. split.
    + intros [Hi Hocc]. split; [lia|done].
    + intros [Hi Hocc]. split; [lia|done].
  - apply filter_StronglySorted, seqZ_StronglySorted.
  - pose proof (CurrentSize_bounds cluster) as Hcs.
    unfold occupied_count.
    replace (len (nodes cluster))
      with (CurrentSize cluster + (len (nodes cluster) - CurrentSize cluster)) at 1 by lia.
    rewrite seqZ_app, List.filter_app by lia.
    rewrite (filter_none _ (seqZ (0 + _) _)).
    + rewrite app_nil_r.
      pose proof (filter_split_length (occupied cluster) (seqZ 0 (CurrentSize cluster))) as Hsplit.
      rewrite length_seqZ in Hsplit. unfold len. lia.
    + intros i Hi%In_seqZ. destruct (occupied cluster i) eqn:Hocc; [|done].
      apply occupied_below_CurrentSize in Hocc. lia.
Qed.

Lemma missing_list_is_the_holes_witness : In 3 (MissingAndFreeNodeIds ring_0_2_4).1.
Proof.
  apply (proj1 (missing_list_is_the_holes ring_0_2_4) 3).
  vm_compute. repeat split; congruence.
Defined.

(** *** The current size under [Add] and [Remove] *)

Section SizeFacts.

Context {N : Type} `{!Node N}.

Implicit Types (cluster : @ClusterRing N) (n : N).

Lemma occupied_by_slot cluster (j : Z) :
  occupied cluster j = (0 <=? j) && negb (unoccupied (slot (nodes cluster) (Z.to_nat j))).
Proof.
  unfold occupied. destruct (0 <=? j) eqn:Hj; [|done].
  rewrite slot_or_nil_slot by lia. done.
Qed.

Lemma CurrentSize_top_occupied cluster :
  0 < CurrentSize cluster -> occupied cluster (CurrentSize cluster - 1) = true.
Proof.
  intros Hpos. apply occupied_spec. pose proof (CurrentSize_bounds cluster).
  split; [lia|]. by apply CurrentSize_from_pos.
Qed.

Lemma not_occupied_from_CurrentSize cluster (j : Z) :
  CurrentSize cluster <= j -> occupied cluster j = false.
Proof.
  intros Hj. destruct (occupied cluster j) eqn:Hocc; [|done].
  apply occupied_below_CurrentSize in Hocc. lia.
Qed.

Lemma CurrentSize_at_most cluster (k : Z) :
  0 <= k -> (forall j : Z, k <= j -> occupied cluster j = false) -> CurrentSize cluster <= k.
Proof.
  intros Hk Hnone. destruct (decide (CurrentSize cluster <= k)) as [|Hgt]; [done|].
  pose proof (CurrentSize_top_occupied cluster) as Htop.
  rewrite Hnone in Htop by lia. assert (false = true) by (apply Htop; lia). done.
Qed.

Lemma occupied_after_Add cluster n (j : Z) :
  0 <= GetId n < int_max ->
  occupied (Add n cluster).2 j =
    if decide (j = GetId n) then negb (String.eqb (GetAddress n) "") else occupied cluster j.
Proof.
  intros Hid. rewrite !occupied_by_slot. case_decide as Hj.
  - subst j. destruct (Add_slot_eq cluster n Hid) as [_ ->]. simpl.
    by replace (0 <=? GetId n) with true by lia.
  - destruct (0 <=? j) eqn:Hpos; [|done].
    destruct (Add_frame cluster n) as (_ & -> & _); [done|lia].
Qed.

Lemma occupied_after_Remove cluster (nodeId j : Z) :
  occupied (Remove nodeId cluster).2 j =
    if decide (j = nodeId) then false else occupied cluster j.
Proof.
  rewrite !occupied_by_slot. case_decide as Hj.
  - subst j. destruct (0 <=? nodeId) eqn:Hpos; [|done]. simpl.
    destruct (decide (nodeId < len (nodes cluster))) as [Hin|Hout].
    + rewrite Remove_in_range by lia. simpl.
      rewrite slot_insert_eq; [done|]. unfold len in Hin. lia.
    + rewrite Remove_beyond by lia. simpl.
      rewrite slot_out_of_range; [done|]. unfold len in Hout. lia.
  - destruct (0 <=? j) eqn:Hpos; [|done].
    destruct (Remove_frame cluster nodeId) as (_ & -> & _); [done|lia].
Qed.

Lemma not_occupied_outside cluster (j : Z) :
  j < 0 \/ CurrentSize cluster <= j -> occupied cluster j = false.
Proof.
  intros [Hneg|Habove]; [|by apply not_occupied_from_CurrentSize].
  unfold occupied. by replace (0 <=? j) with false by lia.
Qed.

End SizeFacts.

(** X6. How the current size moves. [Add] of a node that has an address,
    at an id that names a slot, makes it the larger of what it was and
    [GetId() + 1]. [Remove] never makes it larger, leaves it as it was
    unless the slot removed is the top one, and makes it smaller when the
    top slot is removed. *)
Theorem CurrentSize_after_Add_and_Remove {N : Type} `{!Node N} (cluster : @ClusterRing N) :
  (forall n : N,
     0 <= GetId n < int_max -> GetAddress n <> "" ->
     CurrentSize (Add n cluster).2 = Z.max (CurrentSize cluster) (GetId n + 1)) /\
  (forall nodeId : Z,
     CurrentSize (Remove nodeId cluster).2 <= CurrentSize cluster /\
     (nodeId <> CurrentSize cluster - 1 ->
        CurrentSize (Remove nodeId cluster).2 = CurrentSize cluster) /\
     (0 <= nodeId -> nodeId = CurrentSize cluster - 1 ->
        CurrentSize (Remove nodeId cluster).2 < CurrentSize cluster)).
Proof.
  pose proof (CurrentSize_bounds cluster) as Hcs. split.
  - intros n Hid Haddr. apply String.eqb_neq in Haddr.
    destruct (decide (CurrentSize cluster <= GetId n)) as [Htop|Hbelow].
    + rewrite Z.max_r by lia. apply CurrentSize_highest.
      * rewrite occupied_after_Add by done. rewrite decide_True by done. by rewrite Haddr.
      * intros j Hj. rewrite occupied_after_Add by done. rewrite decide_False by lia.
        apply not_occupied_from_CurrentSize. lia.
    + rewrite Z.max_l by lia.
      transitivity (CurrentSize cluster - 1 + 1); [|lia].
      apply CurrentSize_highest.
      * rewrite occupied_after_Add by done. case_decide; [by rewrite Haddr|].
        apply CurrentSize_top_occupied. lia.
      * intros j Hj. rewrite occupied_after_Add by done. rewrite decide_False by lia.
        apply not_occupied_from_CurrentSize. lia.
  - intros nodeId.
    assert (nodeId <> CurrentSize cluster - 1 ->
            CurrentSize (Remove nodeId cluster).2 = CurrentSize cluster) as Hkeep.
    { intros Hne. destruct (decide (CurrentSize cluster = 0)) as [Hzero|Hpos].
      - rewrite Hzero. apply CurrentSize_no_node. intros i.
        rewrite occupied_after_Remove. case_decide; [done|].
        apply not_occupied_outside. lia.
      - transitivity (CurrentSize cluster - 1 + 1); [|lia].
        apply CurrentSize_highest.
        + rewrite occupied_after_Remove, decide_False by lia.
          apply CurrentSize_top_occupied. lia.
        + intros j Hj. rewrite occupied_after_Remove. case_decide; [done|].
          apply not_occupied_outside. lia. }
    assert (0 <= nodeId -> nodeId = CurrentSize cluster - 1 ->
            CurrentSize (Remove nodeId cluster).2 < CurrentSize cluster) as Hdrop.
    { intros Hid Htop. enough (CurrentSize (Remove nodeId cluster).2 <= nodeId) by lia.
      apply CurrentSize_at_most; [done|]. intros j Hj.
      rewrite occupied_after_Remove. case_decide; [done|].
      apply not_occupied_outside. lia. }
    split; [|by split].
    destruct (decide (nodeId = CurrentSize cluster - 1)) as [Htop|Hne].
    + destruct (decide (0 <= nodeId)) as [Hid|Hneg]; [specialize (Hdrop Hid Htop); lia|].
      rewrite Remove_negative by lia. simpl. lia.
    + rewrite Hkeep by done. lia.
Qed.

Lemma CurrentSize_after_Add_and_Remove_witness :
  CurrentSize (Add (node_at 4) ring_0_2).2 = Z.max (CurrentSize ring_0_2) (4 + 1) /\
  CurrentSize (Remove 2 ring_0_2).2 < CurrentSize ring_0_2.
Proof.
  destruct (CurrentSize_after_Add_and_Remove ring_0_2) as [Hadd Hremove].
  split.
  - apply (Hadd (node_at 4)).
    + vm_compute. split; congruence.
    + simpl. discriminate.
  - apply (Hremove 2); [lia | reflexivity].
Defined.

(** *** Edges of [Add] *)

(** X7. [Add] panics exactly on the ids that name no slot. For a node
    whose id is an [int] and a registry of at most [MaxInt64] entries,
    [Add] panics when the id is negative or is [MaxInt64] (where
    [GetId() + 1] wraps around and the registry is not extended), and only
    then; the ring is then left as it was. *)
Theorem Add_panics_on_ids_outside_slots {N : Type} `{!Node N}
    (cluster : @ClusterRing N) (n : N) :
  int_min <= GetId n <= int_max ->
  len (nodes cluster) <= int_max ->
  ((Add n cluster).1 = Panic <-> GetId n < 0 \/ GetId n = int_max) /\
  ((Add n cluster).1 = Panic -> (Add n cluster).2 = cluster).
Proof.
  intros Hint Hlen. pose proof (len_nonneg (nodes cluster)) as Hnn.
  destruct (decide (GetId n < 0)) as [Hneg|Hpos].
  { rewrite Add_negative by lia. simpl. split; [split; [by left|done]|done]. }
  destruct (decide (GetId n = int_max)) as [Hmax|Hlt].
  - assert (Add n cluster = (Panic, cluster)) as ->.
    { unfold Add, mbind, M_bind, bind, get_nodes, when_, lift, put_nodes; simpl.
      assert (wrap_int (GetId n + 1) = int_min) as ->.
      { rewrite Hmax. reflexivity. }
      replace (len (nodes cluster) <? int_min) with false by (unfold int_min; lia).
      unfold ret; simpl. rewrite store_index_out_of_range by lia. done. }
    simpl. split; [split; [by right|done]|done].
  - destruct (Add_slot_eq cluster n) as [Hok _]; [lia|].
    rewrite Hok. split; [split; [done|lia]|done].
Qed.

Lemma Add_panics_on_ids_outside_slots_witness :
  (Add (node_at (-3)) ring_0_2).1 = Panic /\ (Add (node_at int_max) ring_0_2).1 = Panic.
Proof.
  destruct (Add_panics_on_ids_outside_slots ring_0_2 (node_at (-3))) as [Hneg _].
  { vm_compute. split; congruence. }
  { vm_compute. congruence. }
  destruct (Add_panics_on_ids_outside_slots ring_0_2 (node_at int_max)) as [Hmax _].
  { vm_compute. split; congruence. }
  { vm_compute. congruence. }
  split.
  - apply Hneg. left. simpl. lia.
  - apply Hmax. right. reflexivity.
Defined.

(** *** Sequences of [Add] *)

Section AddFacts.

Context {N : Type} `{!Node N}.

Implicit Types (cluster : @ClusterRing N) (ns : list (option N)) (n : N).

Lemma lookup_by_slot ns (i : nat) :
  ns !! i = if decide (i < length ns)%nat then Some (slot ns i) else None.
Proof.
  unfold slot. case_decide as Hi.
  - destruct (lookup_lt_is_Some_2 ns i Hi) as [x ->]. done.
  - apply lookup_ge_None. lia.
Qed.

Lemma nodes_eq_by_slot ns ns' :
  length ns = length ns' -> (forall i : nat, slot ns i = slot ns' i) -> ns = ns'.
Proof.
  intros Hlen Hslot. apply list_eq. intros i.
  rewrite !lookup_by_slot, Hlen, Hslot. done.
Qed.

Lemma ring_eq cluster cluster' :
  keyspace cluster = keyspace cluster' -> dataCenter cluster = dataCenter cluster' ->
  nodes cluster = nodes cluster' -> expectedSize cluster = expectedSize cluster' ->
  nextSize cluster = nextSize cluster' ->
  replicationFactor cluster = replicationFactor cluster' ->
  cluster = cluster'.
Proof. destruct cluster, cluster'. simpl. by intros -> -> -> -> -> ->. Qed.

(** The registry after [Add], for an id that names a slot. *)
Lemma nodes_after_Add cluster n :
  0 <= GetId n < int_max ->
  length (nodes (Add n cluster).2) =
    Nat.max (length (nodes cluster)) (Z.to_nat (GetId n) + 1) /\
  (forall i : nat,
     slot (nodes (Add n cluster).2) i =
       if decide (i = Z.to_nat (GetId n)) then Some n else slot (nodes cluster) i).
Proof.
  intros Hid. split.
  - destruct (decide (GetId n < len (nodes cluster))) as [Hin|Hout].
    + rewrite Add_in_place by lia. simpl. rewrite length_insert. unfold len in Hin. lia.
    + rewrite Add_grow by lia. simpl. rewrite length_insert.
      pose proof (grown_length (nodes cluster) (GetId n + 1)). unfold len in *. lia.
  - intros i. case_decide as Hi.
    + subst i. by apply Add_slot_eq.
    + destruct (Add_frame cluster n) as (_ & Hslots & _). apply Hslots. lia.
Qed.

End AddFacts.

(** X8. The ring does not depend on the order in which nodes join, and
    the last node added at an id is the one that stays: for ids that name
    slots, two calls of [Add] with different ids give the same ring in
    either order, and a second [Add] at the same id gives the ring that it
    alone would have given. *)
Theorem Add_twice {N : Type} `{!Node N} (cluster : @ClusterRing N) (n1 n2 : N) :
  0 <= GetId n1 < int_max -> 0 <= GetId n2 < int_max ->
  (GetId n1 <> GetId n2 ->
     (Add n2 (Add n1 cluster).2).2 = (Add n1 (Add n2 cluster).2).2) /\
  (GetId n1 = GetId n2 -> (Add n2 (Add n1 cluster).2).2 = (Add n2 cluster).2).
Proof.
  intros H1 H2.
  destruct (nodes_after_Add cluster n1 H1) as [Hl1 Hs1].
  destruct (nodes_after_Add cluster n2 H2) as [Hl2 Hs2].
  destruct (nodes_after_Add (Add n1 cluster).2 n2 H2) as [Hl12 Hs12].
  destruct (nodes_after_Add (Add n2 cluster).2 n1 H1) as [Hl21 Hs21].
  destruct (Add_frame cluster n1) as (_ & _ & Hk1 & Hd1 & He1 & Hn1 & Hr1).
  destruct (Add_frame cluster n2) as (_ & _ & Hk2 & Hd2 & He2 & Hn2 & Hr2).
  destruct (Add_frame (Add n1 cluster).2 n2) as (_ & _ & Hk12 & Hd12 & He12 & Hn12 & Hr12).
  destruct (Add_frame (Add n2 cluster).2 n1) as (_ & _ & Hk21 & Hd21 & He21 & Hn21 & Hr21).
  split; intros Hids; apply ring_eq; try congruence.
  - apply nodes_eq_by_slot; [lia|]. intros i. rewrite Hs12, Hs21, Hs1, Hs2.
    repeat case_decide; try done. lia.
  - apply nodes_eq_by_slot; [lia|]. intros i. rewrite Hs12, Hs2, Hs1.
    repeat case_decide; try done. lia.
Qed.

Lemma Add_twice_witness :
  (Add (node_at 2) (Add (node_at 0) empty_ring).2).2 =
  (Add (node_at 0) (Add (node_at 2) empty_ring).2).2.
Proof.
  destruct (Add_twice empty_ring (node_at 0) (node_at 2)) as [Horder _].
  - vm_compute. split; congruence.
  - vm_compute. split; congruence.
  - apply Horder. vm_compute. congruence.
Defined.

(** *** Lookup through options *)

Lemma transform_snoc (options : list AccessOption) (option : AccessOption) (size : Z)
    (p : Z * Z) :
  transform (options ++ [option]) size p = option (transform options size p).1 size.
Proof. revert p. induction options as [|o rest IH]; intros p; [done|]. simpl. apply IH. Qed.

(** X9. What a lookup through options reports. The flag is [true] exactly
    when a node is returned; a lookup that finds nothing reports the
    replica offset 0 whatever the options produced; a lookup that finds a
    node reports the offset that the last option produced, the offsets of
    the options before it being dropped, and that node is the one stored
    at the index that the last option produced. *)
Theorem GetNode_reports {N : Type} `{!Node N}
    (cluster : @ClusterRing N) (index : Z) (options : list AccessOption) :
  (forall (x : option N) (r : Z),
     GetNode cluster index options = (x, r, false) -> x = None /\ r = 0) /\
  (forall (x : option N) (r : Z),
     GetNode cluster index options = (x, r, true) -> exists n : N, x = Some n) /\
  (forall (last : AccessOption) (x : option N) (r : Z),
     GetNode cluster index (options ++ [last]) = (x, r, true) ->
     let before := transform options (len (nodes cluster)) (index, 0) in
     let final := last before.1 (len (nodes cluster)) in
     r = final.2 /\ 0 <= final.1 < len (nodes cluster) /\
     nodes cluster !! Z.to_nat final.1 = Some x).
Proof.
  split; [|split].
  - intros x r. rewrite GetNode_refines. unfold GetNode_spec.
    case_bool_decide; [|by intros [= <- <-]].
    destruct (nodes cluster !! _) as [[n|]|]; by intros [= <- <-].
  - intros x r. rewrite GetNode_refines. unfold GetNode_spec.
    case_bool_decide; [|done].
    destruct (nodes cluster !! _) as [[n|]|]; [|done..]. intros [= <- _]. by exists n.
  - intros last x r. rewrite GetNode_refines. unfold GetNode_spec.
    rewrite transform_snoc. simpl.
    case_bool_decide as Hi; [|done].
    destruct (nodes cluster !! _) as [[n|]|] eqn:Hn; [|done..].
    intros [= <- <-]. done.
Qed.

Lemma GetNode_reports_witness :
  (exists n : node, Some (node_at 0) = Some n) /\
  nodes ring_0_2 !! Z.to_nat (replica_option 2 1 3).1 = Some (Some (node_at 0)).
Proof.
  destruct (GetNode_reports ring_0_2 0 [replica_option 1]) as (_ & _ & Hlast).
  destruct (GetNode_reports ring_0_2 0 [replica_option 1; replica_option 2])
    as (_ & Hfound & _).
  split.
  - apply (Hfound (Some (node_at 0)) 2). reflexivity.
  - apply (Hlast (replica_option 2) (Some (node_at 0)) 2). reflexivity.
Defined.

(** *** The text of [String] *)

Lemma string_app_assoc (s1 s2 s3 : string) : (s1 +:+ s2) +:+ s3 = s1 +:+ s2 +:+ s3.
Proof.
  induction s1 as [|a s1 IH]; [done|].
  change (String a ((s1 +:+ s2) +:+ s3) = String a (s1 +:+ s2 +:+ s3)). by rewrite IH.
Qed.

Lemma string_app_empty_r (s : string) : s +:+ "" = s.
Proof.
  induction s as [|a s IH]; [done|].
  change (String a (s +:+ "") = String a s). by rewrite IH.
Qed.

Lemma concat_snoc (sep : string) (l : list string) (x : string) :
  String.concat sep (l ++ [x]) =
    match l with
    | [] => x
    | _ => String.concat sep l +:+ sep +:+ x
    end.
Proof.
  induction l as [|y l IH]; [done|].
  destruct l as [|z l].
  - done.
  - change (y +:+ sep +:+ String.concat sep ((z :: l) ++ [x]) =
            (y +:+ sep +:+ String.concat sep (z :: l)) +:+ sep +:+ x).
    rewrite IH. by rewrite !string_app_assoc.
Qed.

Section StringFacts.

Context {N : Type} `{!Node N}.

Implicit Types (cluster : @ClusterRing N).

(** A slot below the expected size, or below the current size, is
    written: after a space unless it is slot 0. *)
Lemma String_step_shown cluster (output : string) (i : Z) :
  0 <= i < Z.max (expectedSize cluster) (CurrentSize cluster) ->
  String_step cluster (CurrentSize cluster) output i =
    (if negb (i =? 0) then output +:+ " " else output) +:+ slot_text cluster i.
Proof.
  intros Hi. unfold String_step, slot_text.
  assert ((i <? expectedSize cluster) || (i <? CurrentSize cluster) = true) as ->.
  { apply orb_true_iff. lia. }
  destruct (slot_or_nil (nodes cluster) i) as [n|]; [|done].
  by destruct (String.eqb (GetAddress n) "").
Qed.

Lemma String_loop_shown cluster (output : string) (k : nat) :
  Z.of_nat k <= Z.max (expectedSize cluster) (CurrentSize cluster) ->
  fold_left (String_step cluster (CurrentSize cluster)) (seqZ 0 (Z.of_nat k)) output =
    output +:+ String.concat " " (map (slot_text cluster) (seqZ 0 (Z.of_nat k))).
Proof.
  induction k as [|k IH]; intros Hk.
  - simpl. by rewrite string_app_empty_r.
  - rewrite seqZ_S, fold_left_app, IH by lia. simpl.
    rewrite String_step_shown by lia.
    rewrite map_app. simpl. rewrite concat_snoc.
    destruct k as [|k]; [simpl; by rewrite string_app_empty_r|].
    destruct (0 + Z.of_nat (S k) =? 0) eqn:Hzero;
      [apply Z.eqb_eq in Hzero; exfalso; clear -Hzero; lia|].
    simpl negb. cbv iota.
    rewrite seqZ_S, map_app.
    destruct (map (slot_text cluster) (seqZ 0 (Z.of_nat k)) ++ _) as [|y l] eqn:Hl.
    { by apply app_eq_nil in Hl as [_ ?]. }
    by rewrite !string_app_assoc.
Qed.

End StringFacts.

(** X10. The text of [String]. It is the list of the slots below the
    larger of the expected size and the current size, each written as the
    id of its node or as [_], separated by single spaces and enclosed in
    brackets, then the size annotation, then the missing slots when there
    are some. Slots beyond that bound are never written, the list never
    starts with a space, and the part on free slots is never written. *)
Theorem String_text {N : Type} `{!Node N} (cluster : @ClusterRing N) :
  ClusterRing_String cluster =
    "[" +:+ String.concat " "
              (map (slot_text cluster)
                   (seqZ 0 (Z.max (expectedSize cluster) (CurrentSize cluster))))
        +:+ "]" +:+ size_text cluster
        +:+ match (MissingAndFreeNodeIds cluster).1 with
            | [] => ""
            | missingList =>
                "(" +:+ fmt_d (len missingList) +:+ " missing " +:+ fmt_v missingList +:+ ")"
            end.
Proof.
  pose proof (CurrentSize_bounds cluster) as Hcs.
  remember (Z.max 0 (Z.max (expectedSize cluster) (CurrentSize cluster))) as shown eqn:Hshown.
  assert (seqZ 0 (Z.max (expectedSize cluster) (CurrentSize cluster)) = seqZ 0 shown) as ->.
  { destruct (decide (0 <= Z.max (expectedSize cluster) (CurrentSize cluster))).
    - f_equal. lia.
    - by rewrite !seqZ_nil by lia. }
  unfold ClusterRing_String.
  remember (if len (nodes cluster) <? expectedSize cluster
            then expectedSize cluster else len (nodes cluster)) as bound eqn:Hbound.
  assert (shown <= bound) as Hle.
  { destruct (len (nodes cluster) <? expectedSize cluster) eqn:Hlt; lia. }
  assert (fold_left (String_step cluster (CurrentSize cluster)) (seqZ 0 bound) ("" +:+ "[") =
          "[" +:+ String.concat " " (map (slot_text cluster) (seqZ 0 shown))) as ->.
  { replace bound with (shown + (bound - shown)) by lia.
    rewrite seqZ_app, fold_left_app by lia.
    rewrite String_loop_silent.
    - replace shown with (Z.of_nat (Z.to_nat shown)) by lia.
      apply String_loop_shown. lia.
    - intros i Hi%In_seqZ. split; [|lia].
      pose proof (not_occupied_outside cluster i) as Hout.
      unfold occupied in Hout. replace (0 <=? i) with true in Hout by lia.
      simpl in Hout. apply negb_false_iff, Hout. lia. }
  rewrite MissingAndFreeNodeIds_spec. simpl.
  unfold size_text.
  destruct (List.filter _ _) as [|i missingList]; simpl;
    destruct (nextSize cluster =? 0);
    try destruct (negb (CurrentSize cluster =? expectedSize cluster)
                  && negb (expectedSize cluster =? 0));
    rewrite ?string_app_assoc, ?string_app_empty_r; try done.
Qed.

(** *** Sizes and membership *)

(** X11. The three size setters and the membership of the ring do not
    interfere: a setter leaves the registry as it is, so that
    [CurrentSize], [MissingAndFreeNodeIds] and every [GetNode] answer what
    they answered before, and it commutes with [Add] and with [Remove],
    which return the same value and reach the same ring whether the setter
    is called before or after them. *)
Theorem setters_and_membership_independent {N : Type} `{!Node N}
    (setter : @ClusterRing N -> Z -> @ClusterRing N) (cluster : @ClusterRing N) (v : Z) :
  In setter [SetExpectedSize; SetNextSize; SetReplicationFactor] ->
  nodes (setter cluster v) = nodes cluster /\
  CurrentSize (setter cluster v) = CurrentSize cluster /\
  MissingAndFreeNodeIds (setter cluster v) = MissingAndFreeNodeIds cluster /\
  (forall (index : Z) (options : list AccessOption),
     GetNode (setter cluster v) index options = GetNode cluster index options) /\
  (forall n : N,
     Add n (setter cluster v) = ((Add n cluster).1, setter (Add n cluster).2 v)) /\
  (forall nodeId : Z,
     Remove nodeId (setter cluster v) =
       ((Remove nodeId cluster).1, setter (Remove nodeId cluster).2 v)).
Proof.
  intros Hsetter. simpl in Hsetter.
  destruct Hsetter as [<- | [<- | [<- | []]]].
  all: unfold SetExpectedSize, SetNextSize, SetReplicationFactor.
  all: destruct (0 <? v) eqn:Hv.
  all: repeat split; try done.
  all: intros; unfold Add, Remove, mbind, M_bind, bind, get_nodes, when_, lift, put_nodes,
         ret, set_nodes; simpl.
  all: repeat case_match; simplify_eq/=; congruence.
Qed.

Lemma setters_and_membership_independent_witness :
  CurrentSize (SetExpectedSize ring_0_2 7) = CurrentSize ring_0_2 /\
  Add (node_at 4) (SetNextSize ring_0_2 5) =
    ((Add (node_at 4) ring_0_2).1, SetNextSize (Add (node_at 4) ring_0_2).2 5).
Proof.
  destruct (setters_and_membership_independent SetExpectedSize ring_0_2 7)
    as (_ & Hsize & _); [simpl; tauto|].
  destruct (setters_and_membership_independent SetNextSize ring_0_2 5)
    as (_ & _ & _ & _ & Hadd & _); [simpl; tauto|].
  split; [exact Hsize | exact (Hadd (node_at 4))].
Defined.

(** ** Properties of the shard table *)

Section ShardFacts.

Context {ShardStatus : Type} (IdentifierOnThisServer : ShardStatus -> string).

Implicit Types (shards : gmap string ShardStatus) (st : ShardStatus).

Lemma GetShardStatuses_loop_values (visited : list (string * ShardStatus)) :
  GetShardStatuses_loop visited = visited.*2.
Proof.
  unfold GetShardStatuses_loop.
  enough (forall acc, fold_left (fun statuses '(_, shard) => statuses ++ [shard]) visited acc
                      = acc ++ visited.*2) as Hgen by apply (Hgen []).
  induction visited as [|[k st] visited IH]; intros acc; simpl.
  - by rewrite app_nil_r.
  - rewrite IH. by rewrite <- app_assoc.
Qed.

(** Every entry of a table is filed under the identifier of its
    status. *)
Lemma shards_keyed_by_identifier shards (k : string) st :
  shards_history IdentifierOnThisServer shards ->
  shards !! k = Some st -> k = IdentifierOnThisServer st.
Proof.
  intros Hhist. revert k st.
  induction Hhist as [|shards st' Hh IH|shards st' Hh IH]; intros k st Hk.
  - done.
  - simpl in Hk. apply lookup_insert_Some in Hk as [[<- <-]|[_ Hk]]; [done|by apply IH].
  - unfold RemoveShardStatus in Hk. apply lookup_delete_Some in Hk as [_ Hk]. by apply IH.
Qed.

(** What [GetShardStatuses] returns is the statuses of the table, in
    some order. *)
Lemma GetShardStatuses_values shards (statuses : list ShardStatus) :
  GetShardStatuses shards statuses -> statuses ≡ₚ (map_to_list shards).*2.
Proof.
  intros (visited & Hperm & ->). rewrite GetShardStatuses_loop_values. by rewrite Hperm.
Qed.

Lemma GetShardStatuses_once_returned shards :
  GetShardStatuses shards (GetShardStatuses_once shards).
Proof. by exists (map_to_list shards). Qed.

Lemma GetShardStatuses_elem shards (statuses : list ShardStatus) st :
  shards_history IdentifierOnThisServer shards ->
  GetShardStatuses shards statuses ->
  st ∈ statuses <-> shards !! IdentifierOnThisServer st = Some st.
Proof.
  intros Hhist Hres%GetShardStatuses_values. rewrite Hres, list_elem_of_fmap. split.
  - intros ([k st'] & -> & Hin%elem_of_map_to_list). simpl.
    by rewrite <- (shards_keyed_by_identifier _ _ _ Hhist Hin).
  - intros Hst. exists (IdentifierOnThisServer st, st). split; [done|].
    by apply elem_of_map_to_list.
Qed.

End ShardFacts.

(** X12. [SetShardStatus] returns what the table held under the
    identifier of the status and puts the status in its place: nil on the
    table of a new node; the status set before when two statuses of one
    identifier are set in a row, the table being then the one that the
    second call alone would have left; and a call for another identifier
    in between changes nothing to that. *)
Theorem SetShardStatus_returns_previous {ShardStatus : Type}
    (IdentifierOnThisServer : ShardStatus -> string)
    (shards : gmap string ShardStatus) (st1 st2 : ShardStatus) :
  IdentifierOnThisServer st1 = IdentifierOnThisServer st2 ->
  (SetShardStatus IdentifierOnThisServer NewNode_shards st1).1 = None /\
  SetShardStatus IdentifierOnThisServer
    (SetShardStatus IdentifierOnThisServer shards st1).2 st2 =
    (Some st1, (SetShardStatus IdentifierOnThisServer shards st2).2) /\
  (forall other : ShardStatus,
     IdentifierOnThisServer other <> IdentifierOnThisServer st1 ->
     (SetShardStatus IdentifierOnThisServer
        (SetShardStatus IdentifierOnThisServer
           (SetShardStatus IdentifierOnThisServer shards st1).2 other).2 st2).1 = Some st1).
Proof.
  intros Hid. unfold SetShardStatus, NewNode_shards. simpl. split; [|split].
  - apply lookup_empty.
  - rewrite <- Hid. by rewrite lookup_insert_eq, insert_insert_eq.
  - intros other Hother. rewrite <- Hid.
    rewrite lookup_insert_ne by done. by rewrite lookup_insert_eq.
Qed.

Lemma SetShardStatus_returns_previous_witness :
  SetShardStatus status_identifier
    (SetShardStatus status_identifier NewNode_shards (status_of "ks.0.1" 1)).2
    (status_of "ks.0.1" 2) =
  (Some (status_of "ks.0.1" 1),
   (SetShardStatus status_identifier NewNode_shards (status_of "ks.0.1" 2)).2).
Proof.
  apply (SetShardStatus_returns_previous status_identifier NewNode_shards
           (status_of "ks.0.1" 1) (status_of "ks.0.1" 2)).
  reflexivity.
Defined.

(** X13. [RemoveShardStatus] removes by identifier. It leaves the table
    as it is when the table has no entry for the identifier of the status;
    it undoes a [SetShardStatus] that filled a free identifier, whichever
    status of that identifier it is given; and after it, [SetShardStatus]
    for that identifier returns nil. *)
Theorem RemoveShardStatus_by_identifier {ShardStatus : Type}
    (IdentifierOnThisServer : ShardStatus -> string)
    (shards : gmap string ShardStatus) (st st' : ShardStatus) :
  IdentifierOnThisServer st' = IdentifierOnThisServer st ->
  (shards !! IdentifierOnThisServer st = None ->
     RemoveShardStatus IdentifierOnThisServer shards st = shards /\
     RemoveShardStatus IdentifierOnThisServer
       (SetShardStatus IdentifierOnThisServer shards st).2 st' = shards) /\
  (SetShardStatus IdentifierOnThisServer
     (RemoveShardStatus IdentifierOnThisServer shards st) st').1 = None.
Proof.
  intros Hid. unfold SetShardStatus, RemoveShardStatus. simpl. rewrite Hid. split.
  - intros Hfree. split.
    + by apply delete_id.
    + rewrite delete_insert_eq. by apply delete_id.
  - apply lookup_delete_eq.
Qed.

Lemma RemoveShardStatus_by_identifier_witness :
  RemoveShardStatus status_identifier
    (SetShardStatus status_identifier NewNode_shards (status_of "ks.0.1" 1)).2
    (status_of "ks.0.1" 9) = NewNode_shards.
Proof.
  destruct (RemoveShardStatus_by_identifier status_identifier NewNode_shards
              (status_of "ks.0.1" 1) (status_of "ks.0.1" 9)) as [Hfree _].
  - reflexivity.
  - apply Hfree. reflexivity.
Defined.

(** X14. [GetShardStatuses] returns each status of the table once. On a
    table that started empty and was updated by [SetShardStatus] and
    [RemoveShardStatus], whatever the order of the visit, the result has
    as many statuses as the table has entries, no two of them under one
    identifier, and a status is in it exactly when it is the one the table
    holds under its identifier; and there always is a result. *)
Theorem GetShardStatuses_one_per_identifier {ShardStatus : Type}
    (IdentifierOnThisServer : ShardStatus -> string)
    (shards : gmap string ShardStatus) (statuses : list ShardStatus) :
  shards_history IdentifierOnThisServer shards ->
  GetShardStatuses shards statuses ->
  length statuses = size shards /\
  NoDup (IdentifierOnThisServer <$> statuses) /\
  (forall st : ShardStatus,
     st ∈ statuses <-> shards !! IdentifierOnThisServer st = Some st) /\
  GetShardStatuses shards (GetShardStatuses_once shards).
Proof.
  intros Hhist Hres. split; [|split; [|split]].
  - apply GetShardStatuses_values in Hres. rewrite Hres.
    by rewrite length_fmap, length_map_to_list.
  - apply GetShardStatuses_values in Hres. rewrite Hres.
    assert (IdentifierOnThisServer <$> (map_to_list shards).*2 = (map_to_list shards).*1)
      as ->; [|apply NoDup_fst_map_to_list].
    rewrite <- list_fmap_compose. apply list_fmap_ext.
    intros i [k st] Hin%list_elem_of_lookup_2%elem_of_map_to_list. simpl.
    symmetry. by apply (shards_keyed_by_identifier IdentifierOnThisServer shards).
  - intros st. by apply GetShardStatuses_elem.
  - apply GetShardStatuses_once_returned.
Qed.

Lemma two_shards_history : shards_history status_identifier two_shards.
Proof. repeat apply shards_set. apply shards_new. Qed.

Lemma GetShardStatuses_one_per_identifier_witness :
  length (GetShardStatuses_once two_shards) = size two_shards.
Proof.
  apply (GetShardStatuses_one_per_identifier status_identifier two_shards
           (GetShardStatuses_once two_shards) two_shards_history).
  apply GetShardStatuses_once_returned.
Defined.

(** X15. The result of [GetShardStatuses] follows the updates: after
    [RemoveShardStatus] no status of the removed identifier is returned,
    and after [SetShardStatus] the status set is returned and is the only
    one of its identifier. *)
Theorem GetShardStatuses_after_update {ShardStatus : Type}
    (IdentifierOnThisServer : ShardStatus -> string)
    (shards : gmap string ShardStatus) (st : ShardStatus) :
  shards_history IdentifierOnThisServer shards ->
  (forall statuses : list ShardStatus,
     GetShardStatuses (RemoveShardStatus IdentifierOnThisServer shards st) statuses ->
     forall st' : ShardStatus,
       st' ∈ statuses -> IdentifierOnThisServer st' <> IdentifierOnThisServer st) /\
  (forall statuses : list ShardStatus,
     GetShardStatuses (SetShardStatus IdentifierOnThisServer shards st).2 statuses ->
     st ∈ statuses /\
     forall st' : ShardStatus,
       st' ∈ statuses -> IdentifierOnThisServer st' = IdentifierOnThisServer st -> st' = st).
Proof.
  intros Hhist. split.
  - intros statuses Hres st' Hin Hid.
    pose proof (GetShardStatuses_elem IdentifierOnThisServer _ statuses st'
                  (shards_removed _ _ shards st Hhist) Hres) as Helem.
    apply Helem in Hin. unfold RemoveShardStatus in Hin. rewrite Hid in Hin. by rewrite lookup_delete_eq in Hin.
  - intros statuses Hres.
    pose proof (fun st' => GetShardStatuses_elem IdentifierOnThisServer _ statuses st'
                              (shards_set _ _ shards st Hhist) Hres) as Helem.
    simpl in Helem. split.
    + apply Helem. apply lookup_insert_eq.
    + intros st' Hin Hid. apply Helem in Hin.
      rewrite Hid, lookup_insert_eq in Hin. congruence.
Qed.

Lemma GetShardStatuses_after_update_witness :
  forall st' : sample_status,
    st' ∈ GetShardStatuses_once (RemoveShardStatus status_identifier two_shards
                                   (status_of "ks.0.1" 0)) ->
    status_identifier st' <> "ks.0.1".
Proof.
  apply (proj1 (GetShardStatuses_after_update status_identifier two_shards
                  (status_of "ks.0.1" 0) two_shards_history)).
  apply GetShardStatuses_once_returned.
Defined.

(** ** Properties of the connection dispatcher *)

Section DispatcherFacts.

Context {ClientConn : Type} (grpc_Dial : string -> ClientConn + string).

Import Connection.

(** The four ways in which [doWithConnect] ends. *)
Lemma doWithConnect_cases (name : string) (node : option ClusterNode) (serverId : Z)
    (fn : callback ClientConn) :
  (node = None /\
   doWithConnect grpc_Dial name node serverId fn =
     (Ok (Some (name +:+ ": server " +:+ fmt_d serverId +:+ " is missing")), [])) \/
  (exists n, node = Some n /\ ClusterNode_StoreResource n = None /\
   doWithConnect grpc_Dial name node serverId fn = (Panic, [])) \/
  (exists n store err, node = Some n /\ ClusterNode_StoreResource n = Some store /\
   grpc_Dial (AdminAddress store) = inr err /\
   doWithConnect grpc_Dial name node serverId fn =
     (Ok (Some (name +:+ ": fail to dial " +:+ AdminAddress store +:+ ": " +:+ err)),
      [Dialed (AdminAddress store)])) \/
  (exists n store conn, node = Some n /\ ClusterNode_StoreResource n = Some store /\
   grpc_Dial (AdminAddress store) = inl conn /\
   doWithConnect grpc_Dial name node serverId fn =
     (Ok (fn n conn),
      [Dialed (AdminAddress store); Called n conn;
       Closed conn])).
Proof.
  unfold doWithConnect. destruct node as [n|]; [|by left].
  right. destruct (ClusterNode_StoreResource n) as [store|] eqn:Hstore; [|left; by exists n].
  right. destruct (grpc_Dial (AdminAddress store)) as [conn|err] eqn:Hdial.
  - right. by exists n, store, conn.
  - left. by exists n, store, err.
Qed.

End DispatcherFacts.

(** X16. The discipline of [doWithConnect]. The caller's function is
    called only for a node that is there, on the connection that dialing
    the administrative address of that node has produced; it is then the
    only call between the dial and the closing of that same connection,
    and its error value is what [doWithConnect] returns. A connection is
    closed only after the function has been called on it, and nothing is
    logged. *)
Theorem doWithConnect_discipline {ClientConn : Type}
    (grpc_Dial : string -> ClientConn + string)
    (name : string) (node : option Connection.ClusterNode) (serverId : Z)
    (fn : Connection.callback ClientConn) :
  (forall (n : Connection.ClusterNode) (conn : ClientConn),
     In (Connection.Called n conn) (Connection.doWithConnect grpc_Dial name node serverId fn).2 ->
     node = Some n /\
     (exists store : StoreResource,
        Connection.ClusterNode_StoreResource n = Some store /\
        grpc_Dial (AdminAddress store) = inl conn /\
        (Connection.doWithConnect grpc_Dial name node serverId fn).2 =
          [Connection.Dialed (AdminAddress store); Connection.Called n conn;
           Connection.Closed conn]) /\
     (Connection.doWithConnect grpc_Dial name node serverId fn).1 = Ok (fn n conn)) /\
  (forall conn : ClientConn,
     In (Connection.Closed conn) (Connection.doWithConnect grpc_Dial name node serverId fn).2 ->
     exists n : Connection.ClusterNode,
       In (Connection.Called n conn)
          (Connection.doWithConnect grpc_Dial name node serverId fn).2) /\
  (forall message : string,
     ~ In (Connection.Logged message)
          (Connection.doWithConnect grpc_Dial name node serverId fn).2).
Proof.
  destruct (doWithConnect_cases grpc_Dial name node serverId fn)
    as [[-> ->]|[(n & -> & Hs & ->)|[(n & s & err & -> & Hs & Hd & ->)
                                    |(n & s & conn & -> & Hs & Hd & ->)]]]; simpl.
  - repeat split; intros; tauto.
  - repeat split; intros; tauto.
  - split; [|split].
    + intros n' conn' [Habs|[]]. discriminate Habs.
    + intros conn' [Habs|[]]. discriminate Habs.
    + intros message [Habs|[]]. discriminate Habs.
  - split; [|split].
    + intros n' conn' [Habs|[Heq|[Habs|[]]]]; try discriminate.
      injection Heq as <- <-. split; [done|]. split; [|done]. by exists s.
    + intros conn' [Habs|[Habs|[Heq|[]]]]; try discriminate.
      injection Heq as <-. exists n. right. by left.
    + intros message [Habs|[Habs|[Habs|[]]]]; discriminate.
Qed.

Lemma doWithConnect_discipline_witness :
  (Connection.doWithConnect sample_dial "delete" (Some (cluster_node_at "s0:8279")) 0
     sample_fn).1 = Ok (sample_fn (cluster_node_at "s0:8279") "conn:s0:8279").
Proof.
  apply (proj1 (doWithConnect_discipline sample_dial "delete"
                  (Some (cluster_node_at "s0:8279")) 0 sample_fn)
           (cluster_node_at "s0:8279") "conn:s0:8279").
  right. left. reflexivity.
Defined.

(** X17. [PrimaryShards.WithConnection] checks both bounds. For a server
    id that is negative or not below the number of servers it returns an
    error without dialing and without calling the function; for an id
    within bounds it does what [doWithConnect] does on that entry. It
    panics only when the entry selected is a node whose store resource is
    nil, never on the id. *)
Theorem PrimaryShards_WithConnection_bounds {ClientConn : Type}
    (grpc_Dial : string -> ClientConn + string)
    (fmt_nodes : list (option Connection.ClusterNode) -> string)
    (nodes : list (option Connection.ClusterNode)) (name : string) (serverId : Z)
    (fn : Connection.callback ClientConn) :
  (serverId < 0 \/ len nodes <= serverId ->
     exists message : string,
       Connection.PrimaryShards_WithConnection grpc_Dial fmt_nodes nodes name serverId fn =
         (Ok (Some message), [])) /\
  (forall node : option Connection.ClusterNode,
     0 <= serverId -> nodes !! Z.to_nat serverId = Some node ->
     Connection.PrimaryShards_WithConnection grpc_Dial fmt_nodes nodes name serverId fn =
       Connection.doWithConnect grpc_Dial name node serverId fn) /\
  ((Connection.PrimaryShards_WithConnection grpc_Dial fmt_nodes nodes name serverId fn).1
     = Panic <->
   0 <= serverId /\
   exists n : Connection.ClusterNode,
     nodes !! Z.to_nat serverId = Some (Some n) /\
     Connection.ClusterNode_StoreResource n = None).
Proof.
  unfold Connection.PrimaryShards_WithConnection.
  destruct (decide (0 <= serverId < len nodes)) as [Hin|Hout].
  - replace (serverId <? 0) with false by lia.
    replace (len nodes <=? serverId) with false by lia. simpl.
    destruct (index_in_range nodes serverId Hin) as (node & Hnode & ->).
    split; [intros ?; lia|]. split.
    + intros node' _ Hnode'. congruence.
    + destruct (doWithConnect_cases grpc_Dial name node serverId fn)
        as [[-> ->]|[(n & -> & Hs & ->)|[(n & s & err & -> & Hs & Hd & ->)
                                        |(n & s & conn & -> & Hs & Hd & ->)]]]; simpl.
      * split; [done|]. intros (_ & n & Hn & _). congruence.
      * split; [|done]. intros _. split; [lia|]. by exists n.
      * split; [done|]. intros (_ & n' & Hn & Hnil). congruence.
      * split; [done|]. intros (_ & n' & Hn & Hnil). congruence.
  - assert ((serverId <? 0) || (len nodes <=? serverId) = true) as ->.
    { apply orb_true_iff. lia. }
    split; [intros _; by eexists|]. split.
    + intros node Hpos Hnode. apply lookup_lt_Some in Hnode. unfold len in Hout. lia.
    + simpl. split; [done|]. intros (Hpos & n & Hn & _).
      apply lookup_lt_Some in Hn. unfold len in Hout. lia.
Qed.

Lemma PrimaryShards_WithConnection_bounds_witness :
  (exists message : string,
     Connection.PrimaryShards_WithConnection sample_dial (fun _ => "[...]") sample_shards
       "delete" (-1) sample_fn = (Ok (Some message), [])) /\
  Connection.PrimaryShards_WithConnection sample_dial (fun _ => "[...]") sample_shards
    "delete" 1 sample_fn =
  Connection.doWithConnect sample_dial "delete" None 1 sample_fn.
Proof.
  destruct (PrimaryShards_WithConnection_bounds sample_dial (fun _ => "[...]") sample_shards
              "delete" (-1) sample_fn) as [Hout _].
  destruct (PrimaryShards_WithConnection_bounds sample_dial (fun _ => "[...]") sample_shards
              "delete" 1 sample_fn) as (_ & Hin & _).
  split.
  - apply Hout. left. lia.
  - apply Hin; [lia|reflexivity].
Defined.
